(** * schigh/guid: the 26-byte GUID codec and its OR-fold signer

    A shallow embedding of [guid.go] and [signer.go].  Bytes are integers in
    [0, 256), Go strings and byte slices are lists of bytes, fixed-width
    integers are [Z] with their wrap-around written out.  A run-time panic
    (an index out of range) is the [None] of an [option]. *)

From Stdlib Require Import String Ascii ZArith List Bool Lia.
Import ListNotations.
Local Open Scope Z_scope.

(** ** Go values *)

Definition byte_ok (b : Z) : Prop := 0 <= b < 256.
Definition bytes_ok (l : list Z) : Prop := Forall byte_ok l.

Definition to_uint64 (x : Z) : Z := x mod 2 ^ 64.
Definition to_int64 (x : Z) : Z := (x + 2 ^ 63) mod 2 ^ 64 - 2 ^ 63.
Definition to_int32 (x : Z) : Z := (x + 2 ^ 31) mod 2 ^ 32 - 2 ^ 31.
Definition to_byte (x : Z) : Z := x mod 256.

Definition is_int64 (x : Z) : Prop := - 2 ^ 63 <= x < 2 ^ 63.


(** [s[lo:hi]] of a slice or array, and the write-back of a modified view. *)
Definition slice (l : list Z) (lo hi : nat) : list Z :=
  firstn (hi - lo) (skipn lo l).

Definition write_slice (l : list Z) (lo hi : nat) (view : list Z) : list Z :=
  firstn lo l ++ view ++ skipn hi l.

(** [l[i] = v] for an index known to be in range. *)
Definition store (l : list Z) (i : nat) (v : Z) : list Z :=
  firstn i l ++ v :: skipn (S i) l.

(** [l[i]]: [None] is the index-out-of-range panic. *)
Definition index (l : list Z) (i : nat) : option Z := nth_error l i.

(** The bytes of a string literal. *)
Definition bytes_of (s : string) : list Z :=
  map (fun c => Z.of_nat (nat_of_ascii c)) (list_ascii_of_string s).

(** ** encoding/binary: variable-length integers *)
Module binary.

Definition MaxVarintLen64 : nat := 10.

(** [PutUvarint]: the loop walks [buf] from index 0; running off the end of
    the buffer is the panic. The result is the buffer after the writes. *)
Fixpoint PutUvarint (buf : list Z) (x : Z) : option (list Z) :=
  match buf with
  | [] => None
  | b :: rest =>
      if 128 <=? x
      then match PutUvarint rest (Z.shiftr x 7) with
           | Some rest' => Some (Z.lor (to_byte x) 128 :: rest')
           | None => None
           end
      else Some (to_byte x :: rest)
  end.

Definition PutVarint (buf : list Z) (x : Z) : option (list Z) :=
  let ux := to_uint64 (Z.shiftl (to_uint64 x) 1) in
  PutUvarint buf (if x <? 0 then 2 ^ 64 - 1 - ux else ux).

(** [Uvarint]: [i] is the index of the head of [buf], [x] and [s] the
    accumulator and the shift. Returns the value and the byte count. *)
Fixpoint Uvarint_from (buf : list Z) (i : nat) (x s : Z) : Z * Z :=
  match buf with
  | [] => (0, 0)
  | b :: rest =>
      if Nat.eqb i MaxVarintLen64 then (0, - (Z.of_nat i + 1))
      else if b <? 128 then
        if Nat.eqb i (MaxVarintLen64 - 1) && (1 <? b)
        then (0, - (Z.of_nat i + 1))
        else (Z.lor x (to_uint64 (Z.shiftl b s)), Z.of_nat i + 1)
      else Uvarint_from rest (S i)
             (Z.lor x (to_uint64 (Z.shiftl (Z.land b 127) s))) (s + 7)
  end.

Definition Uvarint (buf : list Z) : Z * Z := Uvarint_from buf 0 0 0.

Definition Varint (buf : list Z) : Z * Z :=
  let '(ux, n) := Uvarint buf in
  let x := Z.shiftr ux 1 in
  (if Z.land ux 1 =? 0 then x else - x - 1, n).

End binary.

(** ** strconv: integers in a base *)
Module strconv.

(** ["0123456789abcdefghijklmnopqrstuvwxyz"[d]] *)
Definition digit (d : Z) : Z := if d <? 10 then 48 + d else 87 + d.

(** The digit loop of [formatBits]; the scratch array has 65 cells. *)
Fixpoint formatBits_loop (fuel : nat) (b u : Z) (a : list Z) : list Z :=
  match fuel with
  | O => a
  | S fuel' =>
      if b <=? u
      then formatBits_loop fuel' b (u / b) (digit (u - (u / b) * b) :: a)
      else digit u :: a
  end.

Definition FormatInt (i : Z) (base : Z) : list Z :=
  let neg := i <? 0 in
  let u := if neg then to_uint64 (- to_uint64 i) else to_uint64 i in
  let a := formatBits_loop 65 base u [] in
  if neg then 45 :: a else a.

Definition lower (c : Z) : Z := Z.lor c 32.

(** The digit value of one character in [ParseUint], [None] when it is not
    a letter or a digit. *)
Definition digit_val (c : Z) : option Z :=
  if (48 <=? c) && (c <=? 57) then Some (c - 48)
  else if (97 <=? lower c) && (lower c <=? 122) then Some (lower c - 97 + 10)
  else None.

(** The loop of [ParseUint] for an explicit base and 64 bits; [None] is a
    syntax or a range error. *)
Fixpoint ParseUint_loop (s : list Z) (base n : Z) : option Z :=
  match s with
  | [] => Some n
  | c :: s' =>
      match digit_val c with
      | None => None
      | Some d =>
          if base <=? d then None
          else if (2 ^ 64 - 1) / base + 1 <=? n then None
          else if 2 ^ 64 - 1 <? n * base + d then None
          else ParseUint_loop s' base (n * base + d)
      end
  end.

Definition ParseUint (s : list Z) (base : Z) : option Z :=
  match s with
  | [] => None
  | _ => ParseUint_loop s base 0
  end.

(** [ParseInt s base 64]: an optional sign, then [ParseUint]. *)
Definition ParseInt (s : list Z) (base : Z) : option Z :=
  match s with
  | [] => None
  | c :: s' =>
      let neg := c =? 45 in
      let body := if (c =? 43) || neg then s' else s in
      match ParseUint body base with
      | None => None
      | Some un =>
          if negb neg && (2 ^ 63 <=? un) then None
          else if neg && (2 ^ 63 <? un) then None
          else Some (if neg then - un else un)
      end
  end.

End strconv.

(** ** encoding/hex *)
Module hex.

(** ["0123456789abcdef"[d]] *)
Definition hextable (d : Z) : Z := if d <? 10 then 48 + d else 87 + d.

Fixpoint Encode (src : list Z) : list Z :=
  match src with
  | [] => []
  | v :: rest =>
      hextable (Z.shiftr v 4) :: hextable (Z.land v 15) :: Encode rest
  end.

Definition fromHexChar (c : Z) : option Z :=
  if (48 <=? c) && (c <=? 57) then Some (c - 48)
  else if (97 <=? c) && (c <=? 102) then Some (c - 97 + 10)
  else if (65 <=? c) && (c <=? 70) then Some (c - 65 + 10)
  else None.

(** [DecodeString]: [None] is an invalid byte or an odd length. *)
Fixpoint DecodeString (s : list Z) : option (list Z) :=
  match s with
  | [] => Some []
  | [_] => None
  | p :: q :: rest =>
      match fromHexChar p, fromHexChar q with
      | Some a, Some b =>
          match DecodeString rest with
          | Some out => Some (Z.lor (Z.shiftl a 4) b :: out)
          | None => None
          end
      | _, _ => None
      end
  end.

End hex.

(** ** crypto/sha256 (FIPS 180-4) *)
Module sha256.

Definition Size : nat := 32.

Definition w32 (x : Z) : Z := x mod 2 ^ 32.
Definition add32 (x y : Z) : Z := w32 (x + y).
Definition rotr (n x : Z) : Z :=
  Z.lor (Z.shiftr x n) (w32 (Z.shiftl x (32 - n))).
Definition not32 (x : Z) : Z := Z.lxor x (2 ^ 32 - 1).

Definition Ch (x y z : Z) : Z := Z.lxor (Z.land x y) (Z.land (not32 x) z).
Definition Maj (x y z : Z) : Z :=
  Z.lxor (Z.lxor (Z.land x y) (Z.land x z)) (Z.land y z).
Definition bsig0 (x : Z) : Z :=
  Z.lxor (Z.lxor (rotr 2 x) (rotr 13 x)) (rotr 22 x).
Definition bsig1 (x : Z) : Z :=
  Z.lxor (Z.lxor (rotr 6 x) (rotr 11 x)) (rotr 25 x).
Definition ssig0 (x : Z) : Z :=
  Z.lxor (Z.lxor (rotr 7 x) (rotr 18 x)) (Z.shiftr x 3).
Definition ssig1 (x : Z) : Z :=
  Z.lxor (Z.lxor (rotr 17 x) (rotr 19 x)) (Z.shiftr x 10).

Definition K : list Z :=
  [ 1116352408; 1899447441; 3049323471; 3921009573;
    961987163; 1508970993; 2453635748; 2870763221;
    3624381080; 310598401; 607225278; 1426881987;
    1925078388; 2162078206; 2614888103; 3248222580;
    3835390401; 4022224774; 264347078; 604807628;
    770255983; 1249150122; 1555081692; 1996064986;
    2554220882; 2821834349; 2952996808; 3210313671;
    3336571891; 3584528711; 113926993; 338241895;
    666307205; 773529912; 1294757372; 1396182291;
    1695183700; 1986661051; 2177026350; 2456956037;
    2730485921; 2820302411; 3259730800; 3345764771;
    3516065817; 3600352804; 4094571909; 275423344;
    430227734; 506948616; 659060556; 883997877;
    958139571; 1322822218; 1537002063; 1747873779;
    1955562222; 2024104815; 2227730452; 2361852424;
    2428436474; 2756734187; 3204031479; 3329325298 ].

Record digest : Type := mkDigest
  { h0 : Z; h1 : Z; h2 : Z; h3 : Z; h4 : Z; h5 : Z; h6 : Z; h7 : Z }.

Definition init : digest :=
  mkDigest 1779033703 3144134277 1013904242 2773480762
           1359893119 2600822924 528734635 1541459225.

(** Big-endian words of a block. *)
Fixpoint words (bs : list Z) : list Z :=
  match bs with
  | b0 :: b1 :: b2 :: b3 :: rest =>
      (b0 * 2 ^ 24 + b1 * 2 ^ 16 + b2 * 2 ^ 8 + b3) :: words rest
  | _ => []
  end.

(** One round: [ws] holds the sixteen schedule words from the current one
    on. *)
Definition round (st : digest * list Z) (k : Z) : digest * list Z :=
  let '(d, ws) := st in
  let w := nth 0 ws 0 in
  let t1 := add32 (add32 (add32 (add32 (h7 d) (bsig1 (h4 d)))
                                (Ch (h4 d) (h5 d) (h6 d))) k) w in
  let t2 := add32 (bsig0 (h0 d)) (Maj (h0 d) (h1 d) (h2 d)) in
  let wnext := add32 (add32 (add32 (ssig1 (nth 14 ws 0)) (nth 9 ws 0))
                            (ssig0 (nth 1 ws 0))) w in
  (mkDigest (add32 t1 t2) (h0 d) (h1 d) (h2 d)
            (add32 (h3 d) t1) (h4 d) (h5 d) (h6 d),
   tl ws ++ [wnext]).

Definition block (d : digest) (bs : list Z) : digest :=
  let '(r, _) := fold_left round K (d, words bs) in
  mkDigest (add32 (h0 d) (h0 r)) (add32 (h1 d) (h1 r))
           (add32 (h2 d) (h2 r)) (add32 (h3 d) (h3 r))
           (add32 (h4 d) (h4 r)) (add32 (h5 d) (h5 r))
           (add32 (h6 d) (h6 r)) (add32 (h7 d) (h7 r)).

Fixpoint blocks (n : nat) (d : digest) (bs : list Z) : digest :=
  match n with
  | O => d
  | S n' => blocks n' (block d (firstn 64 bs)) (skipn 64 bs)
  end.

Definition be32 (x : Z) : list Z :=
  [ Z.shiftr x 24 mod 256; Z.shiftr x 16 mod 256;
    Z.shiftr x 8 mod 256; x mod 256 ].

Definition be64 (x : Z) : list Z :=
  be32 (Z.shiftr x 32 mod 2 ^ 32) ++ be32 (x mod 2 ^ 32).

Definition pad (msg : list Z) : list Z :=
  let len := Z.of_nat (length msg) in
  msg ++ 128 :: repeat 0 (Z.to_nat ((55 - len) mod 64))
      ++ be64 (to_uint64 (8 * len)).

Definition Sum256 (msg : list Z) : list Z :=
  let p := pad msg in
  let d := blocks (length p / 64) init p in
  be32 (h0 d) ++ be32 (h1 d) ++ be32 (h2 d) ++ be32 (h3 d)
    ++ be32 (h4 d) ++ be32 (h5 d) ++ be32 (h6 d) ++ be32 (h7 d).

End sha256.

(** ** time: a [Time] is represented by what the GUID code reads of it, its
    count of nanoseconds since the Unix epoch as an int64. *)
Module time.

Definition Time : Type := Z.

(** [time.Unix(0, nsec)] *)
Definition Unix0 (nsec : Z) : Time := nsec.

Definition UnixNano (t : Time) : Z := t.

(** [Duration.Milliseconds]: integer division, truncated toward zero. *)
Definition Milliseconds (d : Z) : Z := Z.quot d 1000000.

End time.

(** ** package guid *)
Module guid.

Definition byteSize : nat := 26.
Definition fieldSize : nat := 4.
Definition tsStart : nat := 2.
Definition tsEnd : nat := tsStart + 2 * fieldSize.
Definition fpStart : nat := tsEnd.
Definition fpEnd : nat := fpStart + fieldSize.
Definition icStart : nat := fpEnd.
Definition icEnd : nat := icStart + fieldSize.
Definition dcStart : nat := icEnd.
Definition dcEnd : nat := dcStart + fieldSize.
Definition rdStart : nat := dcEnd.
Definition rdEnd : nat := rdStart + fieldSize.

Definition base : Z := 36.
Definition maxInt : Z := 1679616.

(** [type GUID [byteSize]byte] *)
Definition GUID : Type := list Z.

Definition wf (g : GUID) : Prop := length g = byteSize /\ bytes_ok g.

(** [GUID{}] *)
Definition zero : GUID := repeat 0 byteSize.

(** Modelled from the spec: the helper [filter] (int32 to int64) is called
    by the setters but its body is not among the sources. The spec has the
    value range-filtered to [0, 36^4), values outside being reduced modulo
    that bound. *)
Definition filter (v : Z) : Z := v mod maxInt.

(** Modelled from the spec: the helper [leftPad] is called by [String] but
    its body is not among the sources. The spec has left-padding with the
    zero-digit character up to the given width. *)
Definition leftPad (s : list Z) (size : nat) : list Z :=
  repeat 48 (size - length s) ++ s.

Definition WithPrefixBytes (b1 b2 : Z) (g : GUID) : GUID :=
  store (store g 0 b1) 1 b2.

Definition PrefixBytes (g : GUID) : Z * Z := (nth 0 g 0, nth 1 g 0).

(** [binary.PutVarint(g[lo:hi], x)] on the method's copy of the array. *)
Definition put_field (g : GUID) (lo hi : nat) (x : Z) : option GUID :=
  match binary.PutVarint (slice g lo hi) x with
  | Some view => Some (write_slice g lo hi view)
  | None => None
  end.

(** [binary.Varint(g[lo:hi])], the count dropped. *)
Definition get_field (g : GUID) (lo hi : nat) : Z :=
  fst (binary.Varint (slice g lo hi)).

Definition SetTime (g : GUID) (t : time.Time) : option GUID :=
  put_field g tsStart tsEnd (time.Milliseconds (time.UnixNano t)).

Definition Time (g : GUID) : time.Time :=
  time.Unix0 (to_int64 (get_field g tsStart tsEnd * 1000000)).

Definition SetFingerprint (g : GUID) (v : Z) : option GUID :=
  put_field g fpStart fpEnd (filter v).

Definition Fingerprint (g : GUID) : Z :=
  to_int32 (get_field g fpStart fpEnd).

Definition SetCounters (g : GUID) (incr decr : Z) : option GUID :=
  match put_field g icStart icEnd (filter incr) with
  | Some g' => put_field g' dcStart dcEnd (filter decr)
  | None => None
  end.

Definition Counters (g : GUID) : Z * Z :=
  (to_int32 (get_field g icStart icEnd),
   to_int32 (get_field g dcStart dcEnd)).

Definition SetRandom (g : GUID) (v : Z) : option GUID :=
  put_field g rdStart rdEnd (filter v).

Definition Random (g : GUID) : Z :=
  to_int32 (get_field g rdStart rdEnd).

Definition String (g : GUID) : list Z :=
  let nanos := get_field g tsStart tsEnd in
  let fingerprint := get_field g fpStart fpEnd in
  let incr := get_field g icStart icEnd in
  let decr := get_field g dcStart dcEnd in
  let random := get_field g rdStart rdEnd in
  slice g 0 2
    ++ leftPad (strconv.FormatInt nanos base) (fieldSize * 2)
    ++ leftPad (strconv.FormatInt fingerprint base) fieldSize
    ++ leftPad (strconv.FormatInt incr base) fieldSize
    ++ leftPad (strconv.FormatInt decr base) fieldSize
    ++ leftPad (strconv.FormatInt random base) fieldSize.

(** The text positions a slug is made of. *)
Definition slug_positions : list nat :=
  [6; 7; 8; 9; 16; 17; 20; 21; 22; 23; 24; 25]%nat.

(** [gg[p]] for each position in turn; the first index out of range
    panics. *)
Fixpoint pick (gg : list Z) (ps : list nat) : option (list Z) :=
  match ps with
  | [] => Some []
  | p :: ps' =>
      match index gg p with
      | Some c =>
          match pick gg ps' with
          | Some out => Some (c :: out)
          | None => None
          end
      | None => None
      end
  end.

Definition Slug (g : GUID) : option (list Z) :=
  pick (String g) slug_positions.

(** The errors of [Parse], one per message. *)
Inductive ParseError : Type :=
| InvalidLength
| InvalidTimestamp
| InvalidFingerprint
| InvalidIncrementCounter
| InvalidDecrementCounter
| InvalidRandom.

(** [Parse] returns the pair of Go's results; the outer [None] is a panic
    in a setter. *)
Definition Parse (inp : list Z) : option (GUID * option ParseError) :=
  if negb (Nat.eqb (length inp) byteSize)
  then Some (zero, Some InvalidLength)
  else
    let g := store (store zero 0 (nth 0 inp 0)) 1 (nth 1 inp 0) in
    match strconv.ParseInt (slice inp tsStart tsEnd) base with
    | None => Some (zero, Some InvalidTimestamp)
    | Some t =>
    match SetTime g (time.Unix0 (to_int64 (t * 1000000))) with
    | None => None
    | Some g =>
    match strconv.ParseInt (slice inp fpStart fpEnd) base with
    | None => Some (zero, Some InvalidFingerprint)
    | Some fingerprint =>
    match SetFingerprint g (to_int32 fingerprint) with
    | None => None
    | Some g =>
    match strconv.ParseInt (slice inp icStart icEnd) base with
    | None => Some (zero, Some InvalidIncrementCounter)
    | Some incr =>
    match strconv.ParseInt (slice inp dcStart dcEnd) base with
    | None => Some (zero, Some InvalidDecrementCounter)
    | Some decr =>
    match SetCounters g (to_int32 incr) (to_int32 decr) with
    | None => None
    | Some g =>
    match strconv.ParseInt (slice inp rdStart rdEnd) base with
    | None => Some (zero, Some InvalidRandom)
    | Some r =>
    match SetRandom g (to_int32 r) with
    | None => None
    | Some g => Some (g, None)
    end end end end end end end end end.

(** *** signer.go *)

(** The folding loop of [Sign]: [n] iterations are left, [i] runs up from
    2 and [j] down from 31. *)
Fixpoint fold_loop (n i j : nat) (g : GUID) (sum : list Z) : list Z :=
  match n with
  | O => sum
  | S n' =>
      let sum1 := store sum (i - 2) (Z.lor (nth (i - 2) sum 0) (nth i g 0)) in
      let sum2 := store sum1 j (Z.lor (nth j sum1 0) (nth (j - 6) g 0)) in
      fold_loop n' (S i) (j - 1) g sum2
  end.

(** The digest of [Sign] before it is hex-encoded. *)
Definition fold (g : GUID) (sum : list Z) : list Z :=
  let sum := fold_loop 12 2 (sha256.Size - 1) g sum in
  let sum := store sum 12 (Z.lor (nth 12 sum 0) (nth 0 g 0)) in
  store sum 13 (Z.lor (nth 13 sum 0) (nth 1 g 0)).

(** [Sign]: [None] is the nil slice. *)
Definition Sign (g : GUID) (inp : list Z) : option (list Z) :=
  match inp with
  | [] => None
  | _ => Some (hex.Encode (fold g (sha256.Sum256 inp)))
  end.

(** The checking loop of [DidSign]. *)
Fixpoint check_loop (n i j : nat) (g : GUID) (sum : list Z) : bool :=
  match n with
  | O => true
  | S n' =>
      if negb (Z.land (nth (i - 2) sum 0) (nth i g 0) =? nth i g 0)
      then false
      else if negb (Z.land (nth j sum 0) (nth (j - 6) g 0) =? nth (j - 6) g 0)
      then false
      else check_loop n' (S i) (j - 1) g sum
  end.

Definition DidSign (g : GUID) (inp : list Z) : bool :=
  match hex.DecodeString inp with
  | None => false
  | Some sum =>
      if negb (Nat.eqb (length sum) sha256.Size) then false
      else if negb (Z.land (nth 12 sum 0) (nth 0 g 0) =? nth 0 g 0) then false
      else if negb (Z.land (nth 13 sum 0) (nth 1 g 0) =? nth 1 g 0) then false
      else check_loop 12 2 (sha256.Size - 1) g sum
  end.

End guid.

(** * Definitions used in the statements *)

(** The GUID a text parses to. *)
Definition parsed (s : string) : guid.GUID :=
  match guid.Parse (bytes_of s) with
  | Some (g, None) => g
  | _ => []
  end.

(** Valid hex: an even number of hexadecimal digits. *)
Definition is_hex_digit (c : Z) : bool :=
  ((48 <=? c) && (c <=? 57)) || ((97 <=? c) && (c <=? 102))
  || ((65 <=? c) && (c <=? 70)).

Fixpoint valid_hex (s : list Z) : bool :=
  match s with
  | [] => true
  | [_] => false
  | p :: q :: rest => is_hex_digit p && is_hex_digit q && valid_hex rest
  end.

(** A decision procedure for well-formed GUID values. *)
Definition wfb (g : guid.GUID) : bool :=
  Nat.eqb (length g) guid.byteSize
  && forallb (fun b => (0 <=? b) && (b <? 256)) g.

(** A list of known length, spelled out cell by cell. *)
Ltac explode l H :=
  lazymatch type of H with
  | length l = O => destruct l; [clear H | discriminate H]
  | length l = S _ =>
      let x := fresh "b" in
      destruct l as [| x l]; [discriminate H |];
      cbn [length] in H; apply Nat.succ_inj in H; explode l H
  end.

(** The zig-zag code of a signed integer, as [PutVarint] computes it. *)
Definition zigzag (x : Z) : Z := if x <? 0 then - 2 * x - 1 else 2 * x.

(** The text of one numeric field in [String]. *)
Definition field_text (g : guid.GUID) (lo hi width : nat) : list Z :=
  guid.leftPad (strconv.FormatInt (guid.get_field g lo hi) guid.base) width.

(** The decoded fields fit their text widths. *)
Definition fields_in_range (g : guid.GUID) : Prop :=
  0 <= guid.get_field g guid.tsStart guid.tsEnd < 36 ^ 8
  /\ 0 <= guid.get_field g guid.fpStart guid.fpEnd < guid.maxInt
  /\ 0 <= guid.get_field g guid.icStart guid.icEnd < guid.maxInt
  /\ 0 <= guid.get_field g guid.dcStart guid.dcEnd < guid.maxInt
  /\ 0 <= guid.get_field g guid.rdStart guid.rdEnd < guid.maxInt.

(** A GUID built from the zero value: the prefix, then each setter once. *)
Definition build (b1 b2 : Z) (t : time.Time) (fp ic dc rd : Z)
  : option guid.GUID :=
  match guid.SetTime (guid.WithPrefixBytes b1 b2 guid.zero) t with
  | None => None
  | Some g =>
  match guid.SetFingerprint g fp with
  | None => None
  | Some g =>
  match guid.SetCounters g ic dc with
  | None => None
  | Some g => guid.SetRandom g rd
  end end end.

(** One setter call: the GUID it returns, the field it wrote, and the
    fields it left alone. *)
Definition step_spec (g g' : guid.GUID) (lo hi : nat) (x : Z) : Prop :=
  length g' = guid.byteSize
  /\ guid.get_field g' lo hi = x
  /\ (forall k, (k < lo \/ hi <= k)%nat -> nth k g' 0 = nth k g 0)
  /\ (forall lo2 hi2, (hi2 <= lo \/ hi <= lo2)%nat ->
        guid.get_field g' lo2 hi2 = guid.get_field g lo2 hi2).

(** ** guid.go: constructors and interchange adapters *)
Module adapters.

(** The errors of the adapters: an error of [Parse] returned as it is, or
    wrapped with the adapter's message. *)
Inductive Error : Type :=
| ParseFailed (e : guid.ParseError)
| JSONBytes
| JSONParse (e : guid.ParseError)
| ScanParse (e : guid.ParseError)
| ScanType.

(** [type Option func(GUID) GUID] *)
Definition Option : Type := guid.GUID -> guid.GUID.

(** [NewRandom], given what [globalGenerator.Generate()] returned (the
    generator is not among the sources). *)
Definition NewRandom {E : Type} (generated : guid.GUID * option E)
  (opts : list Option) : guid.GUID * option E :=
  match generated with
  | (_, Some err) => (guid.zero, Some err)
  | (out, None) => (fold_left (fun out opt => opt out) opts out, None)
  end.

(** [New]: [None] is the panic. *)
Definition New {E : Type} (generated : guid.GUID * option E)
  (opts : list Option) : option guid.GUID :=
  match NewRandom generated opts with
  | (_, Some _) => None
  | (g, None) => Some g
  end.

Definition ParseString (s : list Z)
  : option (guid.GUID * option guid.ParseError) :=
  guid.Parse s.

(** [MarshalJSON]: the loop reads [s[i]] for [i] from 0 to 25; the outer
    [None] is the index panic. *)
Definition MarshalJSON (g : guid.GUID) : option (list Z * option Error) :=
  let s := guid.String g in
  match guid.pick s (seq 0 guid.byteSize) with
  | Some cs => Some (34 :: cs ++ [34], None)
  | None => None
  end.

(** A method on [*GUID] takes the value its receiver points to and returns
    the value it points to afterwards. [*g = gg] happens only when [Parse]
    returned no error. *)
Definition assign_parsed (g : guid.GUID) (wrap : guid.ParseError -> Error)
  (r : option (guid.GUID * option guid.ParseError))
  : option (guid.GUID * option Error) :=
  match r with
  | None => None
  | Some (_, Some e) => Some (g, Some (wrap e))
  | Some (gg, None) => Some (gg, None)
  end.

Definition UnmarshalJSON (g : guid.GUID) (b : list Z)
  : option (guid.GUID * option Error) :=
  let lb := length b in
  if Nat.leb lb 1 then Some (g, Some JSONBytes)
  else assign_parsed g JSONParse (guid.Parse (slice b 1 (lb - 1))).

(** The dynamic type of the [interface{}] given to [Scan]. *)
Inductive scanned : Type :=
| ScanNil
| ScanBytes (vv : list Z)
| ScanString (vv : list Z)
| ScanOther.

Definition Scan (g : guid.GUID) (v : scanned)
  : option (guid.GUID * option Error) :=
  match v with
  | ScanNil => Some (g, None)
  | ScanBytes vv => assign_parsed g ScanParse (guid.Parse vv)
  | ScanString vv => assign_parsed g ScanParse (ParseString vv)
  | ScanOther => Some (g, Some ScanType)
  end.

Definition Value (g : guid.GUID) : list Z * option Error :=
  (guid.String g, None).

Definition MarshalBinary (g : guid.GUID) : list Z * option Error := (g, None).

Definition UnmarshalBinary (g : guid.GUID) (data : list Z)
  : option (guid.GUID * option Error) :=
  assign_parsed g ParseFailed (guid.Parse data).

Definition MarshalText (g : guid.GUID) : list Z * option Error :=
  (guid.String g, None).

Definition UnmarshalText (g : guid.GUID) (text : list Z)
  : option (guid.GUID * option Error) :=
  UnmarshalBinary g text.

Definition GobEncode (g : guid.GUID) : list Z * option Error :=
  MarshalBinary g.

Definition GobDecode (g : guid.GUID) (data : list Z)
  : option (guid.GUID * option Error) :=
  UnmarshalBinary g data.

End adapters.

(** An ASCII letter or digit. *)
Definition is_alnum (c : Z) : bool :=
  ((48 <=? c) && (c <=? 57)) || ((97 <=? c) && (c <=? 122))
  || ((65 <=? c) && (c <=? 90)).

(** A lower-case ASCII letter turned to upper case. *)
Definition upper (c : Z) : Z :=
  if (97 <=? c) && (c <=? 122) then c - 32 else c.

(** Sequencing of calls that may panic. *)
Definition and_then {A B : Type} (x : option A) (f : A -> option B)
  : option B :=
  match x with
  | Some a => f a
  | None => None
  end.

(** The setters' results agree with their arguments on every getter but
    the one named. *)
Definition same_time (g g' : guid.GUID) : Prop := guid.Time g' = guid.Time g.
Definition same_fingerprint (g g' : guid.GUID) : Prop :=
  guid.Fingerprint g' = guid.Fingerprint g.
Definition same_counters (g g' : guid.GUID) : Prop :=
  guid.Counters g' = guid.Counters g.
Definition same_random (g g' : guid.GUID) : Prop :=
  guid.Random g' = guid.Random g.
Definition same_prefix (g g' : guid.GUID) : Prop :=
  guid.PrefixBytes g' = guid.PrefixBytes g.

(** A lower-case hexadecimal digit. *)
Definition is_lower_hex (c : Z) : bool :=
  ((48 <=? c) && (c <=? 57)) || ((97 <=? c) && (c <=? 102)).

(** An upper-case ASCII letter turned to lower case. *)
Definition to_lower (c : Z) : Z :=
  if (65 <=? c) && (c <=? 90) then c + 32 else c.

(** One of the 36 characters [FormatInt] writes in base 36. *)
Definition is_digit36 (c : Z) : Prop :=
  exists d, 0 <= d < 36 /\ c = strconv.digit d.

(** * The repository's own test vectors *)

Example Sum256_x :
  hex.Encode (sha256.Sum256 (bytes_of "x"))
  = bytes_of "2d711642b726b04401627ca9fbac32f5c8530fb1903cc4db02258717921a4881".
Proof. vm_compute. reflexivity. Qed.

Example Sum256_music :
  hex.Encode (sha256.Sum256 (bytes_of "music television"))
  = bytes_of "35a326193865feff89d0061ff366246ba1fe5c173f839f93aa138b3560058f7c".
Proof. vm_compute. reflexivity. Qed.

Example Parse_happy_path :
  guid.Parse (bytes_of "xokp8l85n201pq00dw00rs6rgq")
  = Some ([ 0x78; 0x6f; 0x9c; 0xce; 0xd5; 0xbf; 0xb6; 0x5e; 0x0; 0x0;
            0xdc; 0x22; 0x0; 0x0; 0xe8; 0x7; 0x0; 0x0; 0xd0; 0xf; 0x0;
            0x0; 0x94; 0xc2; 0x26; 0x0 ], None).
Proof. vm_compute. reflexivity. Qed.

Example Parse_case_insensitive :
  guid.Parse (bytes_of "xoKP8l85N201PQ00DW00RS6RGQ")
  = guid.Parse (bytes_of "xokp8l85n201pq00dw00rs6rgq").
Proof. vm_compute. reflexivity. Qed.

Example Parse_too_short :
  guid.Parse (bytes_of "nope") = Some (guid.zero, Some guid.InvalidLength).
Proof. vm_compute. reflexivity. Qed.

Example String_happy_path :
  guid.String (parsed "xokp8l85n201pq00dw00rs6rgq")
  = bytes_of "xokp8l85n201pq00dw00rs6rgq".
Proof. vm_compute. reflexivity. Qed.

Example getters_happy_path :
  let g := parsed "xokp8l85n201pq00dw00rs6rgq" in
  guid.Fingerprint g = 2222 /\ guid.Counters g = (500, 1000)
  /\ time.UnixNano (guid.Time g) = 1622222222222000000
  /\ guid.PrefixBytes g = (120, 111).
Proof. vm_compute. repeat split. Qed.

Example Slug_first :
  guid.Slug (parsed "nwlen32f2p2s1g0001r1dsx5ls") = Some (bytes_of "2f2p01dsx5ls").
Proof. vm_compute. reflexivity. Qed.

Example Sign_music :
  guid.Sign (parsed "tjl77zbrfh43jk00qs4un0qr57") (bytes_of "music television")
  = Some (bytes_of "bfbbe69bfa65feffe9fb171ff76e246ba1fe5c17bf8f9f93bad39b35f6af9f7d").
Proof. vm_compute. reflexivity. Qed.

Example Sign_single_char :
  guid.Sign (parsed "tjl77zbrfh43jk00qs4un0qr57") (bytes_of "x")
  = Some (bytes_of "bffbd6d3ff66b044e1eb7fa9ffee32f5c8530fb1983fc4dbbaf59f17d6bfd881").
Proof. vm_compute. reflexivity. Qed.

Example DidSign_accepts :
  guid.DidSign (parsed "l6l77zbrfh43jk00rf4umdycxx")
    (bytes_of "bfbbe69bfa65feffe9fb171fff76246ba1fe5c17bf8f9f93aad39b35eaddcf7d")
  = true.
Proof. vm_compute. reflexivity. Qed.

Example DidSign_rejects :
  guid.DidSign (parsed "tjl77zbrfh43jk00qs4un0qr57")
    (bytes_of "bfbbe69bfa65feffe9fb171ff76e246ba1fe5c17bf8f9f93bad39b35f6af9f7c")
  = false.
Proof. vm_compute. reflexivity. Qed.

Example String_prefix_only :
  guid.String (guid.WithPrefixBytes 120 111 guid.zero)
  = bytes_of "xo000000000000000000000000".
Proof. vm_compute. reflexivity. Qed.

Example build_happy_path :
  build 120 111 1622222222222000000 2222 500 1000 315530
  = Some (parsed "xokp8l85n201pq00dw00rs6rgq").
Proof. vm_compute. reflexivity. Qed.

(** * Lists as Go arrays and slices *)

Section ListFacts.

Implicit Types (l view : list Z) (i k lo hi : nat).

Lemma length_store l i v :
  (i < length l)%nat -> length (store l i v) = length l.
Proof.
  intros Hi. unfold store.
  rewrite length_app, length_firstn. cbn [length].
  rewrite length_skipn. lia.
Qed.

Lemma nth_store_same l i v d :
  (i < length l)%nat -> nth i (store l i v) d = v.
Proof.
  intros Hi. unfold store.
  rewrite app_nth2; rewrite length_firstn; [|lia].
  replace (i - Nat.min i (length l))%nat with 0%nat by lia. reflexivity.
Qed.

Lemma nth_store_other l i k v d :
  (i < length l)%nat -> k <> i -> nth k (store l i v) d = nth k l d.
Proof.
  intros Hi Hk. unfold store.
  destruct (Nat.lt_ge_cases k i) as [Hlt | Hge].
  - rewrite app_nth1 by (rewrite length_firstn; lia).
    rewrite nth_firstn.
    destruct (Nat.ltb_spec k i); [reflexivity | lia].
  - rewrite app_nth2; rewrite length_firstn; [|lia].
    replace (Nat.min i (length l)) with i by lia.
    destruct (k - i)%nat as [|m] eqn:E; [lia|].
    cbn [nth]. rewrite nth_skipn. f_equal. lia.
Qed.

Lemma bytes_ok_firstn l k : bytes_ok l -> bytes_ok (firstn k l).
Proof.
  unfold bytes_ok. intros H. rewrite <- (firstn_skipn k l) in H.
  now apply Forall_app in H.
Qed.

Lemma bytes_ok_skipn l k : bytes_ok l -> bytes_ok (skipn k l).
Proof.
  unfold bytes_ok. intros H. rewrite <- (firstn_skipn k l) in H.
  now apply Forall_app in H.
Qed.

Lemma bytes_ok_store l i v :
  bytes_ok l -> byte_ok v -> bytes_ok (store l i v).
Proof.
  intros Hl Hv. unfold store. apply Forall_app. split.
  - now apply bytes_ok_firstn.
  - constructor; [assumption | now apply bytes_ok_skipn].
Qed.

Lemma byte_ok_nth l i : bytes_ok l -> byte_ok (nth i l 0).
Proof.
  intros Hl. destruct (Nat.lt_ge_cases i (length l)) as [Hlt | Hge].
  - unfold bytes_ok in Hl. rewrite Forall_forall in Hl.
    apply Hl. now apply nth_In.
  - rewrite nth_overflow by assumption. unfold byte_ok. lia.
Qed.

Lemma length_slice l lo hi :
  (hi <= length l)%nat -> length (slice l lo hi) = (hi - lo)%nat.
Proof.
  intros H. unfold slice. rewrite length_firstn, length_skipn. lia.
Qed.

Lemma nth_slice l lo hi k d :
  (k < hi - lo)%nat -> nth k (slice l lo hi) d = nth (lo + k) l d.
Proof.
  intros H. unfold slice. rewrite nth_firstn.
  destruct (Nat.ltb_spec k (hi - lo)); [|lia]. apply nth_skipn.
Qed.

Lemma length_write_slice l lo hi view :
  (lo <= hi <= length l)%nat -> length view = (hi - lo)%nat ->
  length (write_slice l lo hi view) = length l.
Proof.
  intros H Hv. unfold write_slice.
  rewrite !length_app, length_firstn, length_skipn. lia.
Qed.

Lemma nth_write_slice_inside l lo hi view k d :
  (lo <= hi <= length l)%nat -> length view = (hi - lo)%nat ->
  (lo <= k < hi)%nat ->
  nth k (write_slice l lo hi view) d = nth (k - lo) view d.
Proof.
  intros H Hv Hk. unfold write_slice.
  rewrite app_nth2; rewrite length_firstn; [|lia].
  replace (Nat.min lo (length l)) with lo by lia.
  apply app_nth1. lia.
Qed.

Lemma nth_write_slice_outside l lo hi view k d :
  (lo <= hi <= length l)%nat -> length view = (hi - lo)%nat ->
  (k < lo \/ hi <= k)%nat ->
  nth k (write_slice l lo hi view) d = nth k l d.
Proof.
  intros H Hv [Hk | Hk]; unfold write_slice.
  - rewrite app_nth1 by (rewrite length_firstn; lia).
    rewrite nth_firstn. destruct (Nat.ltb_spec k lo); [reflexivity | lia].
  - rewrite app_nth2; rewrite length_firstn; [|lia].
    rewrite app_nth2 by lia.
    rewrite nth_skipn. f_equal. lia.
Qed.

Lemma bytes_ok_write_slice l lo hi view :
  bytes_ok l -> bytes_ok view -> bytes_ok (write_slice l lo hi view).
Proof.
  intros Hl Hv. unfold write_slice.
  apply Forall_app. split; [now apply bytes_ok_firstn|].
  apply Forall_app. split; [assumption | now apply bytes_ok_skipn].
Qed.

Lemma bytes_ok_slice l lo hi : bytes_ok l -> bytes_ok (slice l lo hi).
Proof.
  intros Hl. unfold slice.
  now apply bytes_ok_firstn, bytes_ok_skipn.
Qed.

(** Two arrays that agree on a range have the same slice there. *)
Lemma slice_ext l l' lo hi :
  length l = length l' ->
  (forall k, (lo <= k < hi)%nat -> nth k l 0 = nth k l' 0) ->
  slice l lo hi = slice l' lo hi.
Proof.
  intros Hlen Hnth. unfold slice.
  apply nth_ext with (d := 0) (d' := 0).
  - rewrite !length_firstn, !length_skipn. lia.
  - intros n Hn. rewrite !nth_firstn.
    destruct (Nat.ltb_spec n (hi - lo)); [|reflexivity].
    rewrite !nth_skipn. apply Hnth. lia.
Qed.

Lemma slice_write_slice_same l lo hi view :
  (lo <= hi <= length l)%nat -> length view = (hi - lo)%nat ->
  slice (write_slice l lo hi view) lo hi = view.
Proof.
  intros H Hv. unfold slice, write_slice.
  rewrite skipn_app, length_firstn.
  replace (lo - Nat.min lo (length l))%nat with 0%nat by lia.
  rewrite skipn_all2 by (rewrite length_firstn; lia).
  simpl. rewrite firstn_app, <- Hv, firstn_all, Nat.sub_diag. simpl.
  apply app_nil_r.
Qed.

End ListFacts.

(** A property of bytes that holds on each of the 256 holds on all. *)
Lemma byte_cases (P : Z -> bool) :
  forallb P (map Z.of_nat (seq 0 256)) = true ->
  forall b, byte_ok b -> P b = true.
Proof.
  intros H b Hb. rewrite forallb_forall in H. apply H.
  apply in_map_iff. exists (Z.to_nat b). unfold byte_ok in Hb.
  split; [lia | apply in_seq; lia].
Qed.

Lemma land_lor_same (a b : Z) : Z.land (Z.lor a b) b = b.
Proof.
  apply Z.bits_inj'. intros n Hn.
  rewrite Z.land_spec, Z.lor_spec.
  destruct (Z.testbit a n), (Z.testbit b n); reflexivity.
Qed.

Lemma byte_ok_lor (a b : Z) : byte_ok a -> byte_ok b -> byte_ok (Z.lor a b).
Proof.
  unfold byte_ok. intros Ha Hb. split.
  - apply Z.lor_nonneg. lia.
  - destruct (Z.eq_dec (Z.lor a b) 0) as [E | E]; [lia|].
    apply Z.log2_lt_pow2 with (b := 8); [pose proof (Z.lor_nonneg a b); lia|].
    rewrite Z.log2_lor by lia.
    apply Z.max_lub_lt.
    + destruct (Z.eq_dec a 0); [subst; simpl; lia|].
      apply Z.log2_lt_pow2; lia.
    + destruct (Z.eq_dec b 0); [subst; simpl; lia|].
      apply Z.log2_lt_pow2; lia.
Qed.

(** * encoding/hex: decoding undoes encoding *)

Lemma hex_byte_roundtrip (v : Z) :
  byte_ok v ->
  hex.fromHexChar (hex.hextable (Z.shiftr v 4)) = Some (Z.shiftr v 4)
  /\ hex.fromHexChar (hex.hextable (Z.land v 15)) = Some (Z.land v 15)
  /\ Z.lor (Z.shiftl (Z.shiftr v 4) 4) (Z.land v 15) = v.
Proof.
  intros Hv.
  pose (P := fun v =>
    match hex.fromHexChar (hex.hextable (Z.shiftr v 4)),
          hex.fromHexChar (hex.hextable (Z.land v 15)) with
    | Some a, Some b =>
        (a =? Z.shiftr v 4) && (b =? Z.land v 15)
        && (Z.lor (Z.shiftl (Z.shiftr v 4) 4) (Z.land v 15) =? v)
    | _, _ => false
    end).
  assert (HP : P v = true) by (apply byte_cases; [vm_compute; reflexivity | exact Hv]).
  unfold P in HP.
  destruct (hex.fromHexChar (hex.hextable (Z.shiftr v 4))) as [a|]; [|discriminate].
  destruct (hex.fromHexChar (hex.hextable (Z.land v 15))) as [b|]; [|discriminate].
  apply andb_prop in HP. destruct HP as [HP H3].
  apply andb_prop in HP. destruct HP as [H1 H2].
  apply Z.eqb_eq in H1, H2, H3. subst. auto.
Qed.

Lemma DecodeString_Encode (bs : list Z) :
  bytes_ok bs -> hex.DecodeString (hex.Encode bs) = Some bs.
Proof.
  induction 1 as [| v bs Hv Hbs IH]; [reflexivity|].
  destruct (hex_byte_roundtrip v Hv) as (H1 & H2 & H3).
  cbn [hex.Encode hex.DecodeString]. rewrite H1, H2, IH, H3. reflexivity.
Qed.

Lemma fromHexChar_None (c : Z) :
  hex.fromHexChar c = None <-> is_hex_digit c = false.
Proof.
  unfold hex.fromHexChar, is_hex_digit.
  destruct ((48 <=? c) && (c <=? 57)); [split; discriminate|].
  destruct ((97 <=? c) && (c <=? 102)); [split; discriminate|].
  destruct ((65 <=? c) && (c <=? 70)); [split; discriminate|].
  split; reflexivity.
Qed.

Lemma pair_induction (P : list Z -> Prop) :
  P [] -> (forall a, P [a]) ->
  (forall a b l, P l -> P (a :: b :: l)) ->
  forall l, P l.
Proof.
  intros H0 H1 H2.
  assert (H : forall l, P l /\ forall a, P (a :: l)).
  { induction l as [| b l [IHa IHb]]; split; auto. }
  intros l. apply H.
Qed.

Lemma DecodeString_None (s : list Z) :
  hex.DecodeString s = None <-> valid_hex s = false.
Proof.
  induction s as [| a | a b l IH] using pair_induction.
  - split; discriminate.
  - split; reflexivity.
  - cbn [hex.DecodeString valid_hex].
    destruct (hex.fromHexChar a) as [x|] eqn:Ea.
    + assert (Ha : is_hex_digit a = true).
      { destruct (is_hex_digit a) eqn:E; [reflexivity|].
        apply fromHexChar_None in E. congruence. }
      rewrite Ha.
      destruct (hex.fromHexChar b) as [y|] eqn:Eb.
      * assert (Hb : is_hex_digit b = true).
        { destruct (is_hex_digit b) eqn:E; [reflexivity|].
          apply fromHexChar_None in E. congruence. }
        rewrite Hb. cbn [andb].
        destruct (hex.DecodeString l); rewrite <- IH; split; congruence.
      * apply fromHexChar_None in Eb. rewrite Eb. split; reflexivity.
    + apply fromHexChar_None in Ea. rewrite Ea. split; reflexivity.
Qed.

(** * crypto/sha256: the digest is 32 bytes *)

Lemma Sum256_length (msg : list Z) :
  length (sha256.Sum256 msg) = sha256.Size.
Proof. reflexivity. Qed.

Lemma Sum256_bytes_ok (msg : list Z) : bytes_ok (sha256.Sum256 msg).
Proof.
  unfold sha256.Sum256, sha256.be32, bytes_ok.
  cbn [app].
  repeat constructor; apply Z.mod_pos_bound; lia.
Qed.

(** * signer.go *)

Lemma fold_step_bytes_ok (g sum : list Z) (i k : nat) :
  bytes_ok g -> bytes_ok sum ->
  bytes_ok (store sum i (Z.lor (nth i sum 0) (nth k g 0))).
Proof.
  intros Hg Hs. apply bytes_ok_store; [exact Hs|].
  apply byte_ok_lor; apply byte_ok_nth; assumption.
Qed.

Lemma fold_loop_bytes_ok (g : guid.GUID) (n i j : nat) (sum : list Z) :
  bytes_ok g -> bytes_ok sum -> bytes_ok (guid.fold_loop n i j g sum).
Proof.
  intros Hg. revert i j sum.
  induction n as [| n IH]; intros i j sum Hs; [exact Hs|].
  cbn [guid.fold_loop]. apply IH.
  apply fold_step_bytes_ok; [exact Hg|].
  apply fold_step_bytes_ok; assumption.
Qed.

Lemma fold_bytes_ok (g : guid.GUID) (sum : list Z) :
  bytes_ok g -> bytes_ok sum -> bytes_ok (guid.fold g sum).
Proof.
  intros Hg Hs. unfold guid.fold.
  apply fold_step_bytes_ok; [exact Hg|].
  apply fold_step_bytes_ok; [exact Hg|].
  apply fold_loop_bytes_ok; assumption.
Qed.

(** What the loop and the two prefix folds leave in each digest cell. *)
Lemma fold_cells (g : guid.GUID) (sum : list Z) :
  length g = guid.byteSize -> length sum = sha256.Size ->
  guid.fold g sum =
    map (fun k => Z.lor (nth k sum 0) (nth (k + 2) g 0)) (seq 0 12)
    ++ [Z.lor (nth 12 sum 0) (nth 0 g 0); Z.lor (nth 13 sum 0) (nth 1 g 0)]
    ++ slice sum 14 20
    ++ map (fun k => Z.lor (nth k sum 0) (nth (k - 6) g 0)) (seq 20 12).
Proof.
  intros Hg Hs. unfold guid.byteSize in Hg. unfold sha256.Size in Hs.
  explode g Hg. explode sum Hs. reflexivity.
Qed.

Lemma check_after_fold (g : guid.GUID) (sum : list Z) :
  length g = guid.byteSize -> length sum = sha256.Size ->
  let s := guid.fold g sum in
  length s = sha256.Size
  /\ Z.land (nth 12 s 0) (nth 0 g 0) = nth 0 g 0
  /\ Z.land (nth 13 s 0) (nth 1 g 0) = nth 1 g 0
  /\ guid.check_loop 12 2 (sha256.Size - 1) g s = true.
Proof.
  intros Hg Hs. cbv zeta.
  unfold guid.byteSize in Hg. unfold sha256.Size in Hs.
  explode g Hg. explode sum Hs.
  cbv - [Z.lor Z.land Z.eqb].
  rewrite !land_lor_same, !Z.eqb_refl. auto.
Qed.

Lemma wfb_sound (g : guid.GUID) : wfb g = true -> guid.wf g.
Proof.
  unfold wfb, guid.wf. intros H. apply andb_prop in H. destruct H as [H1 H2].
  split; [now apply Nat.eqb_eq|].
  rewrite forallb_forall in H2. apply Forall_forall. intros b Hb.
  specialize (H2 b Hb). unfold byte_ok. lia.
Qed.

(** C2, as amended. For every GUID [g] and non-empty [d], [Sign] returns the
    hex encoding of the SHA-256 digest of [d] folded with [g]: digest bytes
    0-11 are OR-ed with GUID bytes 2-13, digest bytes 12-13 with the prefix
    bytes 0-1, digest bytes 20-31 with GUID bytes 14-25 (the counters and the
    random), and digest bytes 14-19 are those of the plain digest. *)
Theorem Sign_fold_positions (g : guid.GUID) (d : list Z) :
  length g = guid.byteSize -> d <> [] ->
  let h := sha256.Sum256 d in
  let s := guid.fold g h in
  guid.Sign g d = Some (hex.Encode s)
  /\ length s = sha256.Size
  /\ (forall k, (k < 12)%nat -> nth k s 0 = Z.lor (nth k h 0) (nth (k + 2) g 0))
  /\ nth 12 s 0 = Z.lor (nth 12 h 0) (nth 0 g 0)
  /\ nth 13 s 0 = Z.lor (nth 13 h 0) (nth 1 g 0)
  /\ (forall k, (14 <= k < 20)%nat -> nth k s 0 = nth k h 0)
  /\ (forall k, (20 <= k < 32)%nat ->
        nth k s 0 = Z.lor (nth k h 0) (nth (k - 6) g 0)).
Proof.
  intros Hg Hd. cbv zeta.
  split; [destruct d; [contradiction | reflexivity]|].
  pose proof (Sum256_length d) as Hh.
  generalize dependent (sha256.Sum256 d). intros h Hh.
  unfold guid.byteSize in Hg. unfold sha256.Size in Hh.
  explode g Hg. explode h Hh.
  split; [reflexivity|].
  split; [intros k Hk; do 12 (destruct k as [|k]; [reflexivity|]); lia|].
  split; [reflexivity|].
  split; [reflexivity|].
  split; intros k Hk;
    do 32 (destruct k as [|k]; [first [reflexivity | lia]|]); lia.
Qed.

Lemma Sign_fold_positions_witness :
  let g := guid.zero in
  let d := bytes_of "x" in
  guid.Sign g d = Some (hex.Encode (guid.fold g (sha256.Sum256 d)))
  /\ nth 20 (guid.fold g (sha256.Sum256 d)) 0
     = Z.lor (nth 20 (sha256.Sum256 d) 0) (nth 14 g 0).
Proof.
  cbv zeta.
  destruct (Sign_fold_positions guid.zero (bytes_of "x"))
    as (H1 & _ & _ & _ & _ & _ & H7); [reflexivity | discriminate |].
  split; [exact H1 | apply (H7 20%nat); lia].
Defined.

(** C2 as stated fails. With every GUID byte 0xff the signed digest keeps the
    plain SHA-256 bytes at positions 18 and 19, so these are not folded; and a
    GUID that agrees with the zero GUID on bytes 0-13 signs differently from
    it, so bytes outside 0-13 are folded. *)
Lemma Sign_fold_counterexample :
  let d := bytes_of "x" in
  let h := sha256.Sum256 d in
  let ones := repeat 255 guid.byteSize in
  let g2 := store guid.zero 25 2 in
  (nth 18 (guid.fold ones h) 0 = nth 18 h 0 /\ nth 18 h 0 <> 255
   /\ nth 19 (guid.fold ones h) 0 = nth 19 h 0 /\ nth 19 h 0 <> 255)
  /\ firstn 14 g2 = firstn 14 guid.zero
  /\ guid.Sign g2 d <> guid.Sign guid.zero d.
Proof.
  vm_compute. repeat split; intros H; discriminate H.
Qed.

(** C3. For every GUID [g] and every non-empty [d], [Sign] returns a
    signature and [DidSign] accepts it. *)
Theorem DidSign_Sign (g : guid.GUID) (d : list Z) :
  guid.wf g -> d <> [] ->
  exists sig, guid.Sign g d = Some sig /\ guid.DidSign g sig = true.
Proof.
  intros [Hlen Hok] Hd.
  exists (hex.Encode (guid.fold g (sha256.Sum256 d))).
  split; [destruct d; [contradiction | reflexivity]|].
  pose proof (Sum256_length d) as Hh.
  pose proof (Sum256_bytes_ok d) as Hb.
  generalize dependent (sha256.Sum256 d). intros h Hh Hb.
  unfold guid.DidSign.
  rewrite DecodeString_Encode by (apply fold_bytes_ok; assumption).
  destruct (check_after_fold g h Hlen Hh) as (H1 & H2 & H3 & H4).
  rewrite H1, Nat.eqb_refl, H2, H3, !Z.eqb_refl. exact H4.
Qed.

Lemma DidSign_Sign_witness :
  exists sig,
    guid.Sign (parsed "tjl77zbrfh43jk00qs4un0qr57") (bytes_of "x") = Some sig
    /\ guid.DidSign (parsed "tjl77zbrfh43jk00qs4un0qr57") sig = true.
Proof.
  apply DidSign_Sign.
  - apply wfb_sound. vm_compute. reflexivity.
  - discriminate.
Defined.

(** C6. [Sign] and [DidSign] are total functions without an error result:
    [Sign] returns nil exactly on the empty input, and [DidSign] returns
    false on every string that is not valid hex and on every string whose
    decoding is not 32 bytes long. *)
Theorem Sign_DidSign_no_error (g : guid.GUID) :
  (forall d, guid.Sign g d = None <-> d = [])
  /\ (forall s, valid_hex s = false -> guid.DidSign g s = false)
  /\ (forall s sum, hex.DecodeString s = Some sum ->
        length sum <> sha256.Size -> guid.DidSign g s = false).
Proof.
  split; [|split].
  - intros [| b d]; split; intros H; try reflexivity; discriminate H.
  - intros s Hs. apply DecodeString_None in Hs.
    unfold guid.DidSign. rewrite Hs. reflexivity.
  - intros s sum Hs Hlen. unfold guid.DidSign. rewrite Hs.
    destruct (Nat.eqb_spec (length sum) sha256.Size); [contradiction|].
    reflexivity.
Qed.

Lemma Sign_DidSign_no_error_witness :
  guid.Sign guid.zero [] = None
  /\ guid.DidSign guid.zero (bytes_of "zz") = false
  /\ guid.DidSign guid.zero (bytes_of "0") = false
  /\ guid.DidSign guid.zero
       (bytes_of "00000000000000000000000000000000000000000000000000000000000000")
     = false.
Proof.
  destruct (Sign_DidSign_no_error guid.zero) as (H1 & H2 & H3).
  split; [apply H1; reflexivity|].
  split; [apply H2; reflexivity|].
  split; [apply H2; reflexivity|].
  apply (H3 _ (repeat 0 31)); [reflexivity | discriminate].
Defined.

(** C10. The all-zero GUID passes [DidSign] on every string that decodes as
    hex to exactly 32 bytes. *)
Theorem DidSign_zero (s sum : list Z) :
  hex.DecodeString s = Some sum -> length sum = sha256.Size ->
  guid.DidSign guid.zero s = true.
Proof.
  intros Hs Hlen. unfold guid.DidSign. rewrite Hs, Hlen, Nat.eqb_refl.
  unfold sha256.Size in Hlen. explode sum Hlen.
  cbv - [Z.land Z.eqb]. rewrite !Z.land_0_r. reflexivity.
Qed.

Lemma DidSign_zero_witness :
  guid.DidSign guid.zero
    (bytes_of "2d711642b726b04401627ca9fbac32f5c8530fb1903cc4db02258717921a4881")
  = true.
Proof.
  apply (DidSign_zero _ (sha256.Sum256 (bytes_of "x"))).
  - vm_compute. reflexivity.
  - reflexivity.
Defined.

(** * encoding/binary: decoding undoes encoding *)

Section Varint.

Import binary.

Lemma PutUvarint_length (buf : list Z) :
  forall x buf', PutUvarint buf x = Some buf' -> length buf' = length buf.
Proof.
  induction buf as [| b rest IH]; intros x buf' H; [discriminate H|].
  cbn [PutUvarint] in H. destruct (128 <=? x).
  - destruct (PutUvarint rest (Z.shiftr x 7)) as [rest'|] eqn:E;
      [|discriminate H].
    injection H as <-. cbn [length]. f_equal. eapply IH, E.
  - injection H as <-. reflexivity.
Qed.

Lemma byte_ok_to_byte (x : Z) : byte_ok (to_byte x).
Proof. unfold byte_ok, to_byte. apply Z.mod_pos_bound. lia. Qed.

Lemma PutUvarint_bytes_ok (buf : list Z) :
  forall x buf', bytes_ok buf -> PutUvarint buf x = Some buf' ->
  bytes_ok buf'.
Proof.
  induction buf as [| b rest IH]; intros x buf' Hok H; [discriminate H|].
  inversion Hok as [| ? ? Hb Hrest]; subst.
  cbn [PutUvarint] in H. destruct (128 <=? x).
  - destruct (PutUvarint rest (Z.shiftr x 7)) as [rest'|] eqn:E;
      [|discriminate H].
    injection H as <-. constructor.
    + apply byte_ok_lor; [apply byte_ok_to_byte | unfold byte_ok; lia].
    + eapply IH; eassumption.
  - injection H as <-. constructor; [apply byte_ok_to_byte | assumption].
Qed.

Lemma pow2_7_succ (n : nat) :
  2 ^ (7 * Z.of_nat (S n)) = 128 * 2 ^ (7 * Z.of_nat n).
Proof.
  replace (7 * Z.of_nat (S n)) with (7 + 7 * Z.of_nat n) by lia.
  rewrite Z.pow_add_r by lia. reflexivity.
Qed.

(** The buffer is long enough: no panic. *)
Lemma PutUvarint_fits (buf : list Z) :
  forall x, buf <> [] -> 0 <= x < 2 ^ (7 * Z.of_nat (length buf)) ->
  exists buf', PutUvarint buf x = Some buf'.
Proof.
  induction buf as [| b rest IH]; intros x Hne Hx; [contradiction|].
  cbn [PutUvarint]. destruct (Z.leb_spec 128 x) as [Hbig | Hsmall].
  - destruct rest as [| b' rest'].
    + cbn in Hx. lia.
    + destruct (IH (Z.shiftr x 7)) as [rest'' E]; [discriminate | |].
      * rewrite Z.shiftr_div_pow2 by lia.
        change (length (b :: b' :: rest')) with (S (length (b' :: rest')))
          in Hx.
        rewrite pow2_7_succ in Hx.
        change (2 ^ 7) with 128. split.
        -- apply Z.div_pos; lia.
        -- apply Z.div_lt_upper_bound; lia.
      * rewrite E. eauto.
  - eauto.
Qed.

Lemma low7_high (x : Z) :
  Z.lor (x mod 128) (Z.shiftl (Z.shiftr x 7) 7) = x.
Proof.
  change 128 with (2 ^ 7). rewrite <- Z.land_ones by lia.
  rewrite <- Z.ldiff_ones_r by lia.
  rewrite Z.lor_comm. apply Z.lor_ldiff_and.
Qed.

Lemma split7 (x s : Z) :
  0 <= s ->
  Z.lor (Z.shiftl (x mod 128) s) (Z.shiftl (Z.shiftr x 7) (s + 7))
  = Z.shiftl x s.
Proof.
  intros Hs. replace (s + 7) with (7 + s) by lia.
  rewrite <- Z.shiftl_shiftl by lia.
  rewrite <- Z.shiftl_lor, low7_high. reflexivity.
Qed.

Lemma continuation_byte (x : Z) :
  (Z.lor (to_byte x) 128 <? 128) = false
  /\ Z.land (Z.lor (to_byte x) 128) 127 = x mod 128.
Proof.
  pose (P := fun y => negb (Z.lor y 128 <? 128)
                      && (Z.land (Z.lor y 128) 127 =? y mod 128)).
  assert (HP : P (to_byte x) = true).
  { apply byte_cases; [vm_compute; reflexivity | apply byte_ok_to_byte]. }
  unfold P in HP. apply andb_prop in HP. destruct HP as [H1 H2].
  apply negb_true_iff in H1. apply Z.eqb_eq in H2.
  split; [exact H1|]. rewrite H2. unfold to_byte.
  apply Z.mod_mod_divide. exists 2. reflexivity.
Qed.

Lemma shiftl_group_small (a : Z) (i : nat) :
  0 <= a < 128 -> (i <= 8)%nat ->
  to_uint64 (Z.shiftl a (7 * Z.of_nat i)) = Z.shiftl a (7 * Z.of_nat i).
Proof.
  intros Ha Hi. unfold to_uint64. rewrite Z.shiftl_mul_pow2 by lia.
  apply Z.mod_small.
  assert (0 < 2 ^ (7 * Z.of_nat i) <= 2 ^ 56).
  { split; [apply Z.pow_pos_nonneg; lia | apply Z.pow_le_mono_r; lia]. }
  change (2 ^ 64) with (256 * 2 ^ 56). nia.
Qed.

(** Decoding what [PutUvarint] wrote gives the value back, whatever the
    buffer held after the last byte written. *)
Lemma Uvarint_from_PutUvarint (buf : list Z) :
  forall x buf' i acc,
    PutUvarint buf x = Some buf' -> 0 <= x ->
    (i + length buf <= 9)%nat ->
    fst (Uvarint_from buf' i acc (7 * Z.of_nat i))
    = Z.lor acc (Z.shiftl x (7 * Z.of_nat i)).
Proof.
  induction buf as [| b rest IH]; intros x buf' i acc H Hx Hi;
    [discriminate H|].
  cbn [PutUvarint] in H. cbn [length] in Hi.
  destruct (Z.leb_spec 128 x) as [Hbig | Hsmall].
  - destruct (PutUvarint rest (Z.shiftr x 7)) as [rest'|] eqn:E;
      [|discriminate H].
    injection H as <-. cbn [Uvarint_from].
    destruct (Nat.eqb_spec i MaxVarintLen64) as [Hi10 | _];
      [unfold MaxVarintLen64 in Hi10; lia|].
    destruct (continuation_byte x) as [Hc1 Hc2]. rewrite Hc1, Hc2.
    rewrite shiftl_group_small
      by (try apply Z.mod_pos_bound; lia).
    replace (7 * Z.of_nat i + 7) with (7 * Z.of_nat (S i)) by lia.
    rewrite (IH (Z.shiftr x 7) rest' (S i) _ E); [| | lia].
    + rewrite <- Z.lor_assoc. f_equal.
      replace (7 * Z.of_nat (S i)) with (7 * Z.of_nat i + 7) by lia.
      apply split7. lia.
    + apply Z.shiftr_nonneg. lia.
  - injection H as <-. cbn [Uvarint_from].
    destruct (Nat.eqb_spec i MaxVarintLen64) as [Hi10 | _];
      [unfold MaxVarintLen64 in Hi10; lia|].
    assert (Hb : to_byte x = x) by (apply Z.mod_small; lia).
    rewrite Hb. destruct (Z.ltb_spec x 128) as [_ | Hge]; [|lia].
    destruct (Nat.eqb_spec i (MaxVarintLen64 - 1)) as [Hi9 | _];
      [unfold MaxVarintLen64 in Hi9; simpl in Hi9; lia|].
    cbn [andb fst]. rewrite shiftl_group_small by lia. reflexivity.
Qed.

Lemma PutVarint_zigzag (buf : list Z) (x : Z) :
  is_int64 x -> PutVarint buf x = PutUvarint buf (zigzag x).
Proof.
  unfold is_int64, PutVarint, zigzag, to_uint64. intros Hx. f_equal.
  rewrite Z.shiftl_mul_pow2 by lia. change (2 ^ 1) with 2.
  destruct (Z.ltb_spec x 0) as [Hneg | Hpos].
  - replace (x mod 2 ^ 64) with (x + 2 ^ 64).
    2:{ apply Z.mod_unique with (q := -1); lia. }
    replace (((x + 2 ^ 64) * 2) mod 2 ^ 64) with (2 * x + 2 ^ 64).
    2:{ apply Z.mod_unique with (q := 1); lia. }
    lia.
  - rewrite (Z.mod_small x) by lia. rewrite Z.mod_small by lia. lia.
Qed.

Lemma zigzag_nonneg (x : Z) : 0 <= zigzag x.
Proof. unfold zigzag. destruct (Z.ltb_spec x 0); lia. Qed.

Lemma unzigzag (x : Z) :
  (if Z.land (zigzag x) 1 =? 0 then Z.shiftr (zigzag x) 1
   else - Z.shiftr (zigzag x) 1 - 1) = x.
Proof.
  change 1 with (Z.ones 1) at 1. rewrite Z.land_ones by lia.
  rewrite !Z.shiftr_div_pow2 by lia. change (2 ^ 1) with 2.
  unfold zigzag. destruct (Z.ltb_spec x 0) as [Hneg | Hpos].
  - replace (- 2 * x - 1) with (1 + (- x - 1) * 2) by lia.
    rewrite Z.mod_add, Z.div_add by lia.
    change (1 mod 2) with 1. change (1 / 2) with 0.
    cbn [Z.eqb]. lia.
  - replace (2 * x) with (0 + x * 2) by lia.
    rewrite Z.mod_add, Z.div_add by lia.
    change (0 mod 2) with 0. change (0 / 2) with 0.
    cbn [Z.eqb]. lia.
Qed.

(** [Varint] reads back what [PutVarint] wrote into a buffer of at most
    nine bytes. *)
Lemma Varint_PutVarint (buf buf' : list Z) (x : Z) :
  is_int64 x -> (length buf <= 9)%nat ->
  PutVarint buf x = Some buf' -> fst (Varint buf') = x.
Proof.
  intros Hx Hlen H. rewrite PutVarint_zigzag in H by assumption.
  pose proof (Uvarint_from_PutUvarint buf (zigzag x) buf' 0 0 H
                (zigzag_nonneg x) Hlen) as Hu.
  change (7 * Z.of_nat 0) with 0 in Hu.
  rewrite Z.shiftl_0_r, Z.lor_0_l in Hu.
  unfold Varint, Uvarint.
  destruct (Uvarint_from buf' 0 0 0) as [ux n]. cbn [fst] in Hu |- *.
  subst ux. apply unzigzag.
Qed.

Lemma PutVarint_fits (buf : list Z) (x : Z) :
  is_int64 x -> buf <> [] ->
  zigzag x < 2 ^ (7 * Z.of_nat (length buf)) ->
  exists buf', PutVarint buf x = Some buf'.
Proof.
  intros Hx Hne Hz. rewrite PutVarint_zigzag by assumption.
  apply PutUvarint_fits; [assumption|].
  split; [apply zigzag_nonneg | assumption].
Qed.

End Varint.

(** * guid.go: the fields *)

Section Fields.

Import guid.

Lemma put_field_inv (g g' : GUID) (lo hi : nat) (x : Z) :
  put_field g lo hi x = Some g' -> (lo <= hi <= length g)%nat ->
  exists view,
    binary.PutVarint (slice g lo hi) x = Some view
    /\ length view = (hi - lo)%nat
    /\ g' = write_slice g lo hi view.
Proof.
  unfold put_field. intros H Hr.
  destruct (binary.PutVarint (slice g lo hi) x) as [view|] eqn:E;
    [|discriminate H].
  injection H as <-. exists view. repeat split.
  unfold binary.PutVarint in E. apply PutUvarint_length in E.
  rewrite E. apply length_slice. lia.
Qed.

Lemma put_field_total (g : GUID) (lo hi : nat) (x : Z) :
  is_int64 x -> (lo < hi <= length g)%nat ->
  zigzag x < 2 ^ (7 * Z.of_nat (hi - lo)) ->
  exists g', put_field g lo hi x = Some g'.
Proof.
  intros Hx Hr Hz. unfold put_field.
  destruct (PutVarint_fits (slice g lo hi) x Hx) as [view E].
  - intros Hnil. apply (f_equal (@length Z)) in Hnil.
    rewrite length_slice in Hnil by lia. cbn in Hnil. lia.
  - rewrite length_slice by lia. exact Hz.
  - rewrite E. eauto.
Qed.

(** A setter's write stays inside its field. *)
Lemma put_field_frame (g g' : GUID) (lo hi : nat) (x : Z) :
  put_field g lo hi x = Some g' -> (lo <= hi <= length g)%nat ->
  length g' = length g
  /\ (forall k, (k < lo \/ hi <= k)%nat -> nth k g' 0 = nth k g 0)
  /\ (bytes_ok g -> bytes_ok g').
Proof.
  intros H Hr. destruct (put_field_inv _ _ _ _ _ H Hr) as (view & E & Hv & ->).
  split; [now apply length_write_slice|].
  split; [intros k Hk; now apply nth_write_slice_outside|].
  intros Hok. apply bytes_ok_write_slice; [assumption|].
  unfold binary.PutVarint in E.
  eapply PutUvarint_bytes_ok; [|exact E]. now apply bytes_ok_slice.
Qed.

(** The getter reads what the setter wrote, whatever the field held. *)
Lemma get_put_field (g g' : GUID) (lo hi : nat) (x : Z) :
  is_int64 x -> (lo <= hi <= length g)%nat -> (hi - lo <= 9)%nat ->
  put_field g lo hi x = Some g' -> get_field g' lo hi = x.
Proof.
  intros Hx Hr Hw H.
  destruct (put_field_inv _ _ _ _ _ H Hr) as (view & E & Hv & ->).
  unfold get_field. rewrite slice_write_slice_same by assumption.
  eapply Varint_PutVarint; [exact Hx | | exact E].
  rewrite length_slice; lia.
Qed.

Lemma get_field_other (g g' : GUID) (lo hi lo2 hi2 : nat) (x : Z) :
  put_field g lo hi x = Some g' -> (lo <= hi <= length g)%nat ->
  (hi2 <= lo \/ hi <= lo2)%nat ->
  get_field g' lo2 hi2 = get_field g lo2 hi2.
Proof.
  intros H Hr Hd. destruct (put_field_frame _ _ _ _ _ H Hr) as (Hl & Hf & _).
  unfold get_field. f_equal. f_equal. apply slice_ext; [exact Hl|].
  intros k Hk. apply Hf. lia.
Qed.

Lemma filter_range (v : Z) : 0 <= filter v < maxInt.
Proof. unfold filter. apply Z.mod_pos_bound. reflexivity. Qed.

Lemma filter_fits (v : Z) :
  is_int64 (filter v) /\ zigzag (filter v) < 2 ^ (7 * Z.of_nat fieldSize).
Proof.
  pose proof (filter_range v) as H. unfold maxInt in H.
  unfold is_int64, zigzag. destruct (Z.ltb_spec (filter v) 0).
  - lia.
  - change (2 ^ (7 * Z.of_nat fieldSize)) with 268435456. lia.
Qed.

Lemma filter_in_range (v : Z) : 0 <= v < maxInt -> filter v = v.
Proof. intros H. unfold filter. now apply Z.mod_small. Qed.

Lemma Milliseconds_fits (t : Z) :
  is_int64 t ->
  is_int64 (time.Milliseconds t)
  /\ zigzag (time.Milliseconds t) < 2 ^ (7 * Z.of_nat (2 * fieldSize)).
Proof.
  unfold is_int64, time.Milliseconds, zigzag. intros Ht.
  change (2 ^ (7 * Z.of_nat (2 * fieldSize))) with 72057594037927936.
  change (2 ^ 63) with 9223372036854775808 in *.
  assert (H : - 9223372036855 <= t ÷ 1000000 <= 9223372036855).
  { pose proof (Z.quot_rem' t 1000000) as E.
    assert (B : Z.abs (Z.rem t 1000000) < Z.abs 1000000)
      by (apply Z.rem_bound_abs; lia).
    change (Z.abs 1000000) with 1000000 in B. lia. }
  destruct (Z.ltb_spec (t ÷ 1000000) 0); lia.
Qed.

Lemma to_int32_small (v : Z) : 0 <= v < maxInt -> to_int32 v = v.
Proof.
  unfold maxInt, to_int32. intros H.
  rewrite Z.mod_small; change (2 ^ 31) with 2147483648;
    change (2 ^ 32) with 4294967296; lia.
Qed.

(** Every setter returns: the value it stores fits its field. *)
Lemma SetTime_total (g : GUID) (t : time.Time) :
  length g = byteSize -> is_int64 t -> exists g', SetTime g t = Some g'.
Proof.
  intros Hg Ht. unfold SetTime, time.UnixNano.
  destruct (Milliseconds_fits t Ht) as [H1 H2].
  apply put_field_total; [exact H1 | rewrite Hg; cbv; lia | exact H2].
Qed.

Lemma put_filter_total (g : GUID) (lo : nat) (v : Z) :
  (lo + fieldSize <= length g)%nat ->
  exists g', put_field g lo (lo + fieldSize) (filter v) = Some g'.
Proof.
  intros Hr. destruct (filter_fits v) as [H1 H2].
  apply put_field_total; [exact H1 | unfold fieldSize in *; lia|].
  replace (lo + fieldSize - lo)%nat with fieldSize by lia. exact H2.
Qed.

End Fields.

(** C9. Each setter returns a GUID that differs from its argument only inside
    the bytes of its own field: [SetTime] in bytes 2-9, [SetFingerprint] in
    bytes 10-13, [SetCounters] in bytes 14-21 and [SetRandom] in bytes
    22-25. The setters are functions from GUID values to GUID values (Go
    passes the array receiver by value, and the slice written through is a
    view of that copy), so the argument itself is never changed. *)
Theorem setters_frame (g : guid.GUID) :
  guid.wf g ->
  (forall t, is_int64 t ->
     exists g', guid.SetTime g t = Some g' /\ guid.wf g'
       /\ forall k, (k < 2 \/ 10 <= k)%nat -> nth k g' 0 = nth k g 0)
  /\ (forall v,
     exists g', guid.SetFingerprint g v = Some g' /\ guid.wf g'
       /\ forall k, (k < 10 \/ 14 <= k)%nat -> nth k g' 0 = nth k g 0)
  /\ (forall incr decr,
     exists g', guid.SetCounters g incr decr = Some g' /\ guid.wf g'
       /\ forall k, (k < 14 \/ 22 <= k)%nat -> nth k g' 0 = nth k g 0)
  /\ (forall v,
     exists g', guid.SetRandom g v = Some g' /\ guid.wf g'
       /\ forall k, (k < 22 \/ 26 <= k)%nat -> nth k g' 0 = nth k g 0).
Proof.
  intros [Hlen Hok].
  assert (Hfield : forall g0 lo v, length g0 = guid.byteSize -> bytes_ok g0 ->
            (lo + guid.fieldSize <= guid.byteSize)%nat ->
            exists g', guid.put_field g0 lo (lo + guid.fieldSize) (guid.filter v)
                       = Some g' /\ guid.wf g'
              /\ forall k, (k < lo \/ lo + guid.fieldSize <= k)%nat ->
                           nth k g' 0 = nth k g0 0).
  { intros g0 lo v Hl0 Hok0 Hlo.
    destruct (put_filter_total g0 lo v) as [g' E]; [lia|].
    destruct (put_field_frame _ _ _ _ _ E) as (Hl & Hf & Hb); [lia|].
    exists g'. split; [exact E|]. split; [|exact Hf].
    split; [congruence | auto]. }
  split; [|split; [|split]].
  - intros t Ht. destruct (SetTime_total g t Hlen Ht) as [g' E].
    destruct (put_field_frame _ _ _ _ _ E) as (Hl & Hf & Hb);
      [rewrite Hlen; cbv; lia|].
    exists g'. split; [exact E|]. split; [split; [congruence | auto]|].
    intros k Hk. apply Hf. exact Hk.
  - intros v. destruct (Hfield g guid.fpStart v Hlen Hok) as (g' & E & Hwf & Hf);
      [cbv; lia|].
    exists g'. split; [exact E|]. split; [exact Hwf|].
    intros k Hk. apply Hf. exact Hk.
  - intros incr decr.
    destruct (Hfield g guid.icStart incr Hlen Hok) as (g1 & E1 & [Hl1 Hb1] & Hf1);
      [cbv; lia|].
    destruct (Hfield g1 guid.dcStart decr Hl1 Hb1) as (g2 & E2 & Hwf2 & Hf2);
      [cbv; lia|].
    exists g2. unfold guid.SetCounters.
    change guid.icEnd with (guid.icStart + guid.fieldSize)%nat.
    rewrite E1.
    change guid.dcEnd with (guid.dcStart + guid.fieldSize)%nat.
    split; [exact E2|]. split; [exact Hwf2|].
    intros k Hk. rewrite Hf2 by (cbv; cbv in Hk; lia).
    apply Hf1. cbv. cbv in Hk. lia.
  - intros v. destruct (Hfield g guid.rdStart v Hlen Hok) as (g' & E & Hwf & Hf);
      [cbv; lia|].
    exists g'. split; [exact E|]. split; [exact Hwf|].
    intros k Hk. apply Hf. exact Hk.
Qed.

Lemma setters_frame_witness :
  exists g',
    guid.SetTime (parsed "xokp8l85n201pq00dw00rs6rgq") 1600000000000000000
    = Some g'
    /\ guid.wf g'
    /\ forall k, (k < 2 \/ 10 <= k)%nat ->
         nth k g' 0 = nth k (parsed "xokp8l85n201pq00dw00rs6rgq") 0.
Proof.
  destruct (setters_frame (parsed "xokp8l85n201pq00dw00rs6rgq")) as (H & _).
  - apply wfb_sound. vm_compute. reflexivity.
  - apply H. unfold is_int64. lia.
Defined.

(** * strconv: parsing undoes formatting *)

Section Strconv.

Import strconv.

Lemma digit_val_digit (d : Z) :
  0 <= d < 36 -> digit_val (digit d) = Some d /\ 48 <= digit d.
Proof.
  intros Hd.
  pose (P := fun d =>
    if d <? 36
    then match digit_val (digit d) with
         | Some d' => (d' =? d) && (48 <=? digit d)
         | None => false
         end
    else true).
  assert (HP : P d = true).
  { apply byte_cases; [vm_compute; reflexivity | unfold byte_ok; lia]. }
  unfold P in HP. destruct (Z.ltb_spec d 36); [|lia].
  destruct (digit_val (digit d)) as [d'|]; [|discriminate HP].
  apply andb_prop in HP. destruct HP as [H1 H2].
  apply Z.eqb_eq in H1. apply Z.leb_le in H2. subst. auto.
Qed.

Lemma ParseUint_loop_digit (d n : Z) (s : list Z) :
  0 <= d < 36 -> 0 <= n -> n * 36 + d < 2 ^ 64 ->
  ParseUint_loop (digit d :: s) 36 n = ParseUint_loop s 36 (n * 36 + d).
Proof.
  intros Hd Hn Hb. cbn [ParseUint_loop].
  destruct (digit_val_digit d Hd) as [-> _].
  change ((2 ^ 64 - 1) / 36 + 1) with 512409557603043101.
  change (2 ^ 64) with 18446744073709551616 in *.
  destruct (Z.leb_spec 36 d); [lia|].
  destruct (Z.leb_spec 512409557603043101 n); [lia|].
  destruct (Z.ltb_spec (18446744073709551616 - 1) (n * 36 + d)); [lia|].
  reflexivity.
Qed.

Lemma ParseUint_loop_zeros (k : nat) (s : list Z) :
  ParseUint_loop (repeat 48 k ++ s) 36 0 = ParseUint_loop s 36 0.
Proof.
  induction k as [| k IH]; [reflexivity|].
  cbn [repeat app]. change 48 with (digit 0) at 1.
  rewrite ParseUint_loop_digit by lia. exact IH.
Qed.

Lemma pow36_succ (k : nat) : 36 ^ Z.of_nat (S k) = 36 * 36 ^ Z.of_nat k.
Proof. rewrite Nat2Z.inj_succ, Z.pow_succ_r by lia. reflexivity. Qed.

(** Parsing the digits [formatBits] wrote in front of [a] leaves the value
    in the accumulator. *)
Lemma ParseUint_loop_formatBits (fuel : nat) :
  forall u a,
    0 <= u < 2 ^ 64 -> u < 36 ^ Z.of_nat fuel ->
    ParseUint_loop (formatBits_loop fuel 36 u a) 36 0
    = ParseUint_loop a 36 u.
Proof.
  induction fuel as [| fuel IH]; intros u a Hu Hf.
  - change (36 ^ Z.of_nat 0) with 1 in Hf.
    replace u with 0 by lia. reflexivity.
  - rewrite pow36_succ in Hf. cbn [formatBits_loop].
    pose proof (Z.div_mod u 36 ltac:(lia)) as Hdm.
    pose proof (Z.mod_pos_bound u 36 ltac:(lia)) as Hm.
    destruct (Z.leb_spec 36 u) as [Hbig | Hsmall].
    + assert (Hq0 : 0 <= u / 36) by (apply Z.div_pos; lia).
      assert (Hq1 : u / 36 < 36 ^ Z.of_nat fuel)
        by (apply Z.div_lt_upper_bound; lia).
      rewrite IH by lia.
      rewrite ParseUint_loop_digit by lia. f_equal. lia.
    + change u with (id u) at 2.
      rewrite ParseUint_loop_digit by lia. reflexivity.
Qed.

Lemma formatBits_length (fuel : nat) :
  forall u a k,
    0 <= u < 36 ^ Z.of_nat k -> (1 <= k <= fuel)%nat ->
    (length a < length (formatBits_loop fuel 36 u a) <= k + length a)%nat.
Proof.
  induction fuel as [| fuel IH]; intros u a k Hu Hk; [lia|].
  cbn [formatBits_loop]. destruct (Z.leb_spec 36 u) as [Hbig | Hsmall].
  - destruct k as [| k]; [lia|]. rewrite pow36_succ in Hu.
    destruct k as [| k]; [change (36 ^ Z.of_nat 0) with 1 in Hu; lia|].
    specialize (IH (u / 36) (digit (u - u / 36 * 36) :: a) (S k)).
    cbn [length] in IH.
    assert (0 <= u / 36 < 36 ^ Z.of_nat (S k))
      by (split; [apply Z.div_pos | apply Z.div_lt_upper_bound]; lia).
    lia.
  - cbn [length]. lia.
Qed.

Lemma formatBits_chars (fuel : nat) :
  forall u a,
    0 <= u -> Forall (fun c => 48 <= c) a ->
    Forall (fun c => 48 <= c) (formatBits_loop fuel 36 u a).
Proof.
  induction fuel as [| fuel IH]; intros u a Hu Ha; [exact Ha|].
  cbn [formatBits_loop].
  pose proof (Z.div_mod u 36 ltac:(lia)) as Hdm.
  pose proof (Z.mod_pos_bound u 36 ltac:(lia)) as Hm.
  destruct (Z.leb_spec 36 u) as [Hbig | Hsmall].
  - apply IH; [apply Z.div_pos; lia|].
    constructor; [|exact Ha]. apply digit_val_digit. lia.
  - constructor; [|exact Ha]. apply digit_val_digit. lia.
Qed.

Lemma FormatInt_nonneg (v : Z) :
  0 <= v < 2 ^ 64 -> FormatInt v 36 = formatBits_loop 65 36 v [].
Proof.
  intros Hv. unfold FormatInt. destruct (Z.ltb_spec v 0); [lia|].
  unfold to_uint64. rewrite Z.mod_small by lia. reflexivity.
Qed.

Lemma pow36_bound (k : nat) : (k <= 12)%nat -> 36 ^ Z.of_nat k < 2 ^ 63.
Proof.
  intros Hk. apply Z.le_lt_trans with (36 ^ 12); [|reflexivity].
  apply Z.pow_le_mono_r; lia.
Qed.

Lemma length_leftPad (s : list Z) (k : nat) :
  (length s <= k)%nat -> length (guid.leftPad s k) = k.
Proof.
  intros H. unfold guid.leftPad. rewrite length_app, repeat_length. lia.
Qed.

(** A value that fits [k] base-36 digits is formatted and padded to
    exactly [k] characters, and [ParseInt] reads it back. *)
Lemma ParseInt_leftPad_FormatInt (v : Z) (k : nat) :
  0 <= v < 36 ^ Z.of_nat k -> (1 <= k <= 12)%nat ->
  length (guid.leftPad (FormatInt v 36) k) = k
  /\ ParseInt (guid.leftPad (FormatInt v 36) k) 36 = Some v.
Proof.
  intros Hv Hk. pose proof (pow36_bound k ltac:(lia)) as Hp.
  assert (Hv64 : 0 <= v < 2 ^ 64)
    by (change (2 ^ 64) with (2 * 2 ^ 63); lia).
  rewrite FormatInt_nonneg by exact Hv64.
  pose proof (formatBits_length 65 v [] k Hv ltac:(lia)) as Hlen.
  cbn [length] in Hlen. split; [apply length_leftPad; lia|].
  assert (Hch : Forall (fun c => 48 <= c)
                  (guid.leftPad (formatBits_loop 65 36 v []) k)).
  { unfold guid.leftPad. apply Forall_app. split.
    - apply Forall_forall. intros c Hc. apply repeat_spec in Hc. lia.
    - apply formatBits_chars; [lia | constructor]. }
  assert (Hparse : ParseUint_loop
                     (guid.leftPad (formatBits_loop 65 36 v []) k) 36 0
                   = Some v).
  { unfold guid.leftPad. rewrite ParseUint_loop_zeros.
    rewrite ParseUint_loop_formatBits; [reflexivity | exact Hv64|].
    apply Z.lt_le_trans with (36 ^ Z.of_nat k); [lia|].
    apply Z.pow_le_mono_r; lia. }
  pose proof (length_leftPad (formatBits_loop 65 36 v []) k ltac:(lia))
    as HL.
  remember (guid.leftPad (formatBits_loop 65 36 v []) k) as s0 eqn:E in *.
  destruct s0 as [| c s].
  - cbn [length] in HL. lia.
  - inversion Hch as [| ? ? Hc _]; subst.
    unfold ParseInt.
    destruct (Z.eqb_spec c 45); [lia|]. destruct (Z.eqb_spec c 43); [lia|].
    cbn [orb negb andb]. unfold ParseUint. rewrite Hparse.
    destruct (Z.leb_spec (2 ^ 63) v); [lia | reflexivity].
Qed.

End Strconv.

(** * guid.go: the text form *)

Section Text.

Import guid.

Lemma String_fields (g : GUID) :
  String g = slice g 0 2
    ++ field_text g tsStart tsEnd (fieldSize * 2)
    ++ field_text g fpStart fpEnd fieldSize
    ++ field_text g icStart icEnd fieldSize
    ++ field_text g dcStart dcEnd fieldSize
    ++ field_text g rdStart rdEnd fieldSize.
Proof. reflexivity. Qed.

Lemma field_text_min_length (g : GUID) (lo hi k : nat) :
  (k <= length (field_text g lo hi k))%nat.
Proof.
  unfold field_text, leftPad. rewrite length_app, repeat_length. lia.
Qed.

Lemma field_text_in_range (g : GUID) (lo hi k : nat) :
  0 <= get_field g lo hi < 36 ^ Z.of_nat k -> (1 <= k <= 12)%nat ->
  length (field_text g lo hi k) = k
  /\ strconv.ParseInt (field_text g lo hi k) base = Some (get_field g lo hi).
Proof.
  intros Hv Hk. unfold field_text, base.
  now apply ParseInt_leftPad_FormatInt.
Qed.

(** The text is never shorter than 26 characters. *)
Lemma String_min_length (g : GUID) :
  length g = byteSize -> (byteSize <= length (String g))%nat.
Proof.
  intros Hg. rewrite String_fields, !length_app.
  rewrite length_slice by (rewrite Hg; cbv; lia).
  pose proof (field_text_min_length g tsStart tsEnd (fieldSize * 2)).
  pose proof (field_text_min_length g fpStart fpEnd fieldSize).
  pose proof (field_text_min_length g icStart icEnd fieldSize).
  pose proof (field_text_min_length g dcStart dcEnd fieldSize).
  pose proof (field_text_min_length g rdStart rdEnd fieldSize).
  unfold byteSize, fieldSize in *. lia.
Qed.

(** With every decoded field in range the text is 26 characters, each
    field at its fixed place. *)
Lemma String_pieces (g : GUID) :
  length g = byteSize -> fields_in_range g ->
  length (String g) = byteSize
  /\ slice (String g) 0 2 = slice g 0 2
  /\ slice (String g) tsStart tsEnd = field_text g tsStart tsEnd (fieldSize * 2)
  /\ slice (String g) fpStart fpEnd = field_text g fpStart fpEnd fieldSize
  /\ slice (String g) icStart icEnd = field_text g icStart icEnd fieldSize
  /\ slice (String g) dcStart dcEnd = field_text g dcStart dcEnd fieldSize
  /\ slice (String g) rdStart rdEnd = field_text g rdStart rdEnd fieldSize.
Proof.
  intros Hg (Hts & Hfp & Hic & Hdc & Hrd). rewrite String_fields.
  assert (Hp : length (slice g 0 2) = 2%nat)
    by (apply length_slice; rewrite Hg; cbv; lia).
  destruct (field_text_in_range g tsStart tsEnd (fieldSize * 2))
    as [Lts _]; [exact Hts | cbv; lia |].
  destruct (field_text_in_range g fpStart fpEnd fieldSize)
    as [Lfp _]; [exact Hfp | cbv; lia |].
  destruct (field_text_in_range g icStart icEnd fieldSize)
    as [Lic _]; [exact Hic | cbv; lia |].
  destruct (field_text_in_range g dcStart dcEnd fieldSize)
    as [Ldc _]; [exact Hdc | cbv; lia |].
  destruct (field_text_in_range g rdStart rdEnd fieldSize)
    as [Lrd _]; [exact Hrd | cbv; lia |].
  generalize dependent (field_text g rdStart rdEnd fieldSize).
  generalize dependent (field_text g dcStart dcEnd fieldSize).
  generalize dependent (field_text g icStart icEnd fieldSize).
  generalize dependent (field_text g fpStart fpEnd fieldSize).
  generalize dependent (field_text g tsStart tsEnd (fieldSize * 2)).
  generalize dependent (slice g 0 2).
  intros p Hp ts Lts fp Lfp ic Lic dc Ldc rd Lrd.
  change (fieldSize * 2)%nat with 8%nat in Lts.
  unfold fieldSize in Lfp, Lic, Ldc, Lrd.
  explode p Hp. explode ts Lts. explode fp Lfp. explode ic Lic.
  explode dc Ldc. explode rd Lrd.
  repeat split.
Qed.

Lemma pick_nth (gg : list Z) (ps : list nat) :
  (forall p, In p ps -> (p < length gg)%nat) ->
  pick gg ps = Some (map (fun p => nth p gg 0) ps).
Proof.
  induction ps as [| p ps IH]; intros H; [reflexivity|].
  cbn [pick map]. unfold index.
  rewrite (nth_error_nth' gg 0) by (apply H; now left).
  rewrite IH by (intros q Hq; apply H; now right). reflexivity.
Qed.

Lemma slug_positions_bound (p : nat) :
  In p slug_positions -> (6 <= p < byteSize)%nat.
Proof.
  unfold slug_positions, byteSize. cbn [In]. intros H.
  repeat (destruct H as [<- | H]; [lia|]). contradiction.
Qed.

(** The text after the prefix depends on the bytes after the prefix
    only. *)
Lemma String_after_prefix (g g' : GUID) (p : nat) :
  length g = byteSize -> length g' = byteSize ->
  (forall k, (2 <= k)%nat -> nth k g 0 = nth k g' 0) ->
  (2 <= p)%nat -> nth p (String g) 0 = nth p (String g') 0.
Proof.
  intros Hg Hg' Heq Hp.
  assert (Hs : forall lo hi, (2 <= lo)%nat -> slice g lo hi = slice g' lo hi).
  { intros lo hi Hlo. apply slice_ext; [congruence|].
    intros k Hk. apply Heq. lia. }
  rewrite !String_fields. unfold field_text, get_field.
  rewrite !(Hs tsStart), !(Hs fpStart), !(Hs icStart), !(Hs dcStart),
    !(Hs rdStart) by (cbv; lia).
  rewrite !(app_nth2 (slice _ 0 2))
    by (rewrite length_slice; [lia | rewrite ?Hg, ?Hg'; cbv; lia]).
  rewrite !length_slice by (rewrite ?Hg, ?Hg'; cbv; lia).
  reflexivity.
Qed.

End Text.

(** C7. For every GUID, [Slug] returns exactly 12 characters, those of
    [String] at positions 6, 7, 8, 9, 16, 17, 20, 21, 22, 23, 24, 25 in that
    order; two GUIDs that differ in the prefix bytes only, or whose texts
    agree at these positions, have the same slug. *)
Theorem Slug_positions (g g' : guid.GUID) :
  length g = guid.byteSize -> length g' = guid.byteSize ->
  (exists s, guid.Slug g = Some s /\ length s = 12%nat
     /\ s = map (fun p => nth p (guid.String g) 0)
              [6; 7; 8; 9; 16; 17; 20; 21; 22; 23; 24; 25]%nat)
  /\ ((forall k, (2 <= k)%nat -> nth k g 0 = nth k g' 0) ->
      guid.Slug g = guid.Slug g')
  /\ ((forall p, In p [6; 7; 8; 9; 16; 17; 20; 21; 22; 23; 24; 25]%nat ->
         nth p (guid.String g) 0 = nth p (guid.String g') 0) ->
      guid.Slug g = guid.Slug g').
Proof.
  intros Hg Hg'.
  assert (Hpick : forall x, length x = guid.byteSize ->
            guid.Slug x = Some (map (fun p => nth p (guid.String x) 0)
                                  guid.slug_positions)).
  { intros x Hx. unfold guid.Slug. apply pick_nth. intros p Hp.
    apply slug_positions_bound in Hp.
    pose proof (String_min_length x Hx). lia. }
  assert (Hsame : (forall p, In p guid.slug_positions ->
                     nth p (guid.String g) 0 = nth p (guid.String g') 0) ->
                  guid.Slug g = guid.Slug g').
  { intros H. rewrite !Hpick by assumption. f_equal.
    apply map_ext_in. exact H. }
  split; [|split].
  - eexists. split; [apply Hpick; exact Hg|]. split; reflexivity.
  - intros Heq. apply Hsame. intros p Hp.
    apply slug_positions_bound in Hp.
    apply String_after_prefix; try assumption. lia.
  - exact Hsame.
Qed.

Lemma Slug_positions_witness :
  guid.Slug (parsed "nwlen32f2p2s1g0001r1dsx5ls")
  = guid.Slug (parsed "xxlen32f2p2s1g0001r1dsx5ls").
Proof.
  destruct (Slug_positions (parsed "nwlen32f2p2s1g0001r1dsx5ls")
              (parsed "xxlen32f2p2s1g0001r1dsx5ls")) as (_ & H & _);
    [reflexivity | reflexivity |].
  apply H. intros k Hk.
  do 2 (destruct k as [| k]; [lia|]).
  do 24 (destruct k as [| k]; [reflexivity|]).
  reflexivity.
Defined.

(** C5. [Parse] of a byte sequence whose length is not 26 returns the zero
    GUID and the length error, whatever the bytes are. *)
Theorem Parse_invalid_length (inp : list Z) :
  length inp <> guid.byteSize ->
  guid.Parse inp = Some (guid.zero, Some guid.InvalidLength).
Proof.
  intros H. unfold guid.Parse.
  destruct (Nat.eqb_spec (length inp) guid.byteSize); [contradiction|].
  reflexivity.
Qed.

Lemma Parse_invalid_length_witness :
  guid.Parse (bytes_of "xokp8l85n201pq00dw00rs6rgqf")
  = Some (guid.zero, Some guid.InvalidLength).
Proof. apply Parse_invalid_length. discriminate. Defined.

(** C8, as amended. For every GUID whose decoded timestamp lies in
    [0, 36^8) and whose decoded fingerprint, counters and random lie in
    [0, 36^4), [String] returns exactly 26 characters: the 2 raw prefix
    bytes, then the timestamp in base 36 left-padded to 8 characters at
    positions 2-9, then fingerprint, increment counter, decrement counter
    and random, each left-padded to 4 characters, at positions 10-13, 14-17,
    18-21 and 22-25. *)
Theorem String_layout (g : guid.GUID) :
  length g = guid.byteSize -> fields_in_range g ->
  length (guid.String g) = 26%nat
  /\ slice (guid.String g) 0 2 = slice g 0 2
  /\ slice (guid.String g) 2 10
     = guid.leftPad (strconv.FormatInt (guid.get_field g 2 10) 36) 8
  /\ slice (guid.String g) 10 14
     = guid.leftPad (strconv.FormatInt (guid.get_field g 10 14) 36) 4
  /\ slice (guid.String g) 14 18
     = guid.leftPad (strconv.FormatInt (guid.get_field g 14 18) 36) 4
  /\ slice (guid.String g) 18 22
     = guid.leftPad (strconv.FormatInt (guid.get_field g 18 22) 36) 4
  /\ slice (guid.String g) 22 26
     = guid.leftPad (strconv.FormatInt (guid.get_field g 22 26) 36) 4.
Proof.
  intros Hg Hr. exact (String_pieces g Hg Hr).
Qed.

Lemma String_layout_witness :
  length (guid.String (parsed "xokp8l85n201pq00dw00rs6rgq")) = 26%nat
  /\ slice (guid.String (parsed "xokp8l85n201pq00dw00rs6rgq")) 10 14
     = guid.leftPad
         (strconv.FormatInt
            (guid.get_field (parsed "xokp8l85n201pq00dw00rs6rgq") 10 14) 36) 4.
Proof.
  destruct (String_layout (parsed "xokp8l85n201pq00dw00rs6rgq"))
    as (H1 & _ & _ & H4 & _).
  - reflexivity.
  - vm_compute. repeat split; intros H; discriminate H.
  - split; [exact H1 | exact H4].
Defined.

(** C8 as stated fails. [SetTime] accepts a time after the year 2059, whose
    milliseconds need nine base-36 digits: the text has 27 characters. And
    a 26-byte array whose fingerprint bytes decode to a negative number has
    a text of 29 characters. *)
Lemma String_length_counterexample :
  (exists g, guid.SetTime guid.zero 3000000000000000000 = Some g
     /\ guid.wf g /\ length (guid.String g) = 27%nat)
  /\ (let g := store (store (store (store guid.zero 10 255) 11 255) 12 255)
                 13 127 in
      guid.wf g /\ length (guid.String g) = 29%nat).
Proof.
  split.
  - eexists. split; [vm_compute; reflexivity|].
    split; [apply wfb_sound; vm_compute; reflexivity | vm_compute; reflexivity].
  - split; [apply wfb_sound; vm_compute; reflexivity | vm_compute; reflexivity].
Qed.

(** C4. For every value [v], in particular one that is negative or at least
    1,679,616, each of [SetFingerprint], [SetCounters] and [SetRandom]
    stores [v mod 1679616]: the getter returns it, it lies in [0, 1679616),
    and the field's text in [String] has exactly 4 characters. *)
Theorem setters_filter (g : guid.GUID) (v : Z) :
  length g = guid.byteSize ->
  (exists g', guid.SetFingerprint g v = Some g'
     /\ guid.Fingerprint g' = v mod 1679616
     /\ 0 <= guid.Fingerprint g' < 1679616
     /\ length (field_text g' guid.fpStart guid.fpEnd guid.fieldSize) = 4%nat)
  /\ (forall w, exists g', guid.SetCounters g v w = Some g'
     /\ fst (guid.Counters g') = v mod 1679616
     /\ 0 <= fst (guid.Counters g') < 1679616
     /\ length (field_text g' guid.icStart guid.icEnd guid.fieldSize) = 4%nat)
  /\ (forall w, exists g', guid.SetCounters g w v = Some g'
     /\ snd (guid.Counters g') = v mod 1679616
     /\ 0 <= snd (guid.Counters g') < 1679616
     /\ length (field_text g' guid.dcStart guid.dcEnd guid.fieldSize) = 4%nat)
  /\ (exists g', guid.SetRandom g v = Some g'
     /\ guid.Random g' = v mod 1679616
     /\ 0 <= guid.Random g' < 1679616
     /\ length (field_text g' guid.rdStart guid.rdEnd guid.fieldSize) = 4%nat).
Proof.
  intros Hg.
  assert (Hput : forall g0 lo x, length g0 = guid.byteSize ->
            (lo + guid.fieldSize <= guid.byteSize)%nat ->
            exists g', guid.put_field g0 lo (lo + guid.fieldSize) (guid.filter x)
                       = Some g'
              /\ length g' = guid.byteSize
              /\ guid.get_field g' lo (lo + guid.fieldSize) = guid.filter x).
  { intros g0 lo x Hl Hlo.
    destruct (put_filter_total g0 lo x) as [g' E]; [lia|].
    destruct (put_field_frame _ _ _ _ _ E) as (Hl' & _); [lia|].
    exists g'. split; [exact E|]. split; [congruence|].
    apply (get_put_field g0 g' lo _ _ (proj1 (filter_fits x))); [lia | | exact E].
    unfold guid.fieldSize. lia. }
  assert (Hval : forall g' lo x,
            guid.get_field g' lo (lo + guid.fieldSize) = guid.filter x ->
            to_int32 (guid.get_field g' lo (lo + guid.fieldSize))
            = x mod 1679616
            /\ 0 <= to_int32 (guid.get_field g' lo (lo + guid.fieldSize))
               < 1679616
            /\ length (field_text g' lo (lo + guid.fieldSize) guid.fieldSize)
               = 4%nat).
  { intros g' lo x E. pose proof (filter_range x) as Hr.
    rewrite E, to_int32_small by exact Hr.
    split; [reflexivity|]. split; [exact Hr|].
    apply field_text_in_range; [rewrite E; exact Hr | cbv; lia]. }
  split; [|split; [|split]].
  - destruct (Hput g guid.fpStart v Hg) as (g' & E & Hl & Hget); [cbv; lia|].
    exists g'. split; [exact E|]. exact (Hval g' guid.fpStart v Hget).
  - intros w.
    destruct (Hput g guid.icStart v Hg) as (g1 & E1 & Hl1 & Hget1); [cbv; lia|].
    destruct (Hput g1 guid.dcStart w Hl1) as (g2 & E2 & Hl2 & Hget2);
      [cbv; lia|].
    exists g2. unfold guid.SetCounters.
    change guid.icEnd with (guid.icStart + guid.fieldSize)%nat.
    change guid.dcEnd with (guid.dcStart + guid.fieldSize)%nat.
    rewrite E1. split; [exact E2|].
    apply (Hval g2 guid.icStart v). rewrite <- Hget1.
    apply (get_field_other _ _ _ _ _ _ _ E2); [rewrite Hl1; cbv; lia|].
    left. cbv. lia.
  - intros w.
    destruct (Hput g guid.icStart w Hg) as (g1 & E1 & Hl1 & Hget1); [cbv; lia|].
    destruct (Hput g1 guid.dcStart v Hl1) as (g2 & E2 & Hl2 & Hget2);
      [cbv; lia|].
    exists g2. unfold guid.SetCounters.
    change guid.icEnd with (guid.icStart + guid.fieldSize)%nat.
    change guid.dcEnd with (guid.dcStart + guid.fieldSize)%nat.
    rewrite E1. split; [exact E2|].
    exact (Hval g2 guid.dcStart v Hget2).
  - destruct (Hput g guid.rdStart v Hg) as (g' & E & Hl & Hget); [cbv; lia|].
    exists g'. split; [exact E|]. exact (Hval g' guid.rdStart v Hget).
Qed.

Lemma setters_filter_witness :
  exists g', guid.SetFingerprint guid.zero (-1) = Some g'
    /\ guid.Fingerprint g' = (-1) mod 1679616
    /\ 0 <= guid.Fingerprint g' < 1679616
    /\ length (field_text g' guid.fpStart guid.fpEnd guid.fieldSize) = 4%nat.
Proof.
  destruct (setters_filter guid.zero (-1)) as (H & _); [reflexivity|].
  exact H.
Defined.

(** * guid.go: text round trip *)

Section RoundTrip.

Import guid.

Lemma put_field_step (g : GUID) (lo hi : nat) (x : Z) :
  length g = byteSize -> (lo < hi <= byteSize)%nat -> (hi - lo <= 9)%nat ->
  is_int64 x -> zigzag x < 2 ^ (7 * Z.of_nat (hi - lo)) ->
  exists g', put_field g lo hi x = Some g' /\ step_spec g g' lo hi x.
Proof.
  intros Hg Hr Hw Hx Hz.
  destruct (put_field_total g lo hi x Hx) as [g' E]; [lia | exact Hz |].
  destruct (put_field_frame _ _ _ _ _ E) as (Hl & Hf & _); [lia|].
  exists g'. split; [exact E|]. repeat split.
  - congruence.
  - apply (get_put_field g g' lo hi x Hx); [lia | exact Hw | exact E].
  - exact Hf.
  - intros lo2 hi2 Hd. apply (get_field_other _ _ _ _ _ _ _ E); [lia|].
    exact Hd.
Qed.

Lemma put_filter_step (g : GUID) (lo : nat) (v : Z) :
  length g = byteSize -> (lo + fieldSize <= byteSize)%nat ->
  exists g', put_field g lo (lo + fieldSize) (filter v) = Some g'
    /\ step_spec g g' lo (lo + fieldSize) (filter v).
Proof.
  intros Hg Hlo. destruct (filter_fits v) as [H1 H2].
  apply put_field_step; try assumption; unfold fieldSize in *; try lia.
  replace (lo + 4 - lo)%nat with 4%nat by lia. exact H2.
Qed.

(** The fields of a GUID built from the zero value. *)
Lemma build_fields (b1 b2 : Z) (t : time.Time) (fp ic dc rd : Z) :
  is_int64 t ->
  exists g, build b1 b2 t fp ic dc rd = Some g
    /\ length g = byteSize
    /\ nth 0 g 0 = b1 /\ nth 1 g 0 = b2
    /\ get_field g tsStart tsEnd = time.Milliseconds t
    /\ get_field g fpStart fpEnd = filter fp
    /\ get_field g icStart icEnd = filter ic
    /\ get_field g dcStart dcEnd = filter dc
    /\ get_field g rdStart rdEnd = filter rd.
Proof.
  intros Ht. unfold build, SetTime, SetFingerprint, SetCounters, SetRandom.
  unfold time.UnixNano.
  destruct (Milliseconds_fits t Ht) as [Hm1 Hm2].
  set (g0 := WithPrefixBytes b1 b2 zero).
  destruct (put_field_step g0 tsStart tsEnd (time.Milliseconds t))
    as (g1 & E1 & L1 & G1 & F1 & O1);
    [reflexivity | cbv; lia | cbv; lia | exact Hm1 | exact Hm2 |].
  destruct (put_filter_step g1 fpStart fp L1)
    as (g2 & E2 & L2 & G2 & F2 & O2); [cbv; lia|].
  destruct (put_filter_step g2 icStart ic L2)
    as (g3 & E3 & L3 & G3 & F3 & O3); [cbv; lia|].
  destruct (put_filter_step g3 dcStart dc L3)
    as (g4 & E4 & L4 & G4 & F4 & O4); [cbv; lia|].
  destruct (put_filter_step g4 rdStart rd L4)
    as (g5 & E5 & L5 & G5 & F5 & O5); [cbv; lia|].
  change (fpStart + fieldSize)%nat with fpEnd in *.
  change (icStart + fieldSize)%nat with icEnd in *.
  change (dcStart + fieldSize)%nat with dcEnd in *.
  change (rdStart + fieldSize)%nat with rdEnd in *.
  exists g5. rewrite E1, E2, E3, E4.
  split; [exact E5|]. split; [exact L5|].
  split; [rewrite F5, F4, F3, F2, F1 by (cbv; lia); reflexivity|].
  split; [rewrite F5, F4, F3, F2, F1 by (cbv; lia); reflexivity|].
  split; [rewrite O5, O4, O3, O2 by (cbv; lia); exact G1|].
  split; [rewrite O5, O4, O3 by (cbv; lia); exact G2|].
  split; [rewrite O5, O4 by (cbv; lia); exact G3|].
  split; [rewrite O5 by (cbv; lia); exact G4 | exact G5].
Qed.

Lemma build_same_millisecond (b1 b2 : Z) (t t' : time.Time)
      (fp ic dc rd : Z) :
  time.Milliseconds t' = time.Milliseconds t ->
  build b1 b2 t' fp ic dc rd = build b1 b2 t fp ic dc rd.
Proof.
  intros H. unfold build, SetTime, time.UnixNano. rewrite H. reflexivity.
Qed.

Lemma nth_of_slice_prefix (l l' : list Z) (k : nat) :
  slice l 0 2 = slice l' 0 2 -> (k < 2)%nat -> nth k l 0 = nth k l' 0.
Proof.
  intros H Hk.
  pose proof (nth_slice l 0 2 k 0 ltac:(lia)) as A.
  pose proof (nth_slice l' 0 2 k 0 ltac:(lia)) as B.
  cbn [Nat.add] in A, B. congruence.
Qed.

(** [Parse] on the text of an in-range GUID runs the setters again, from
    the zero value, on the decoded fields. *)
Lemma Parse_String_replay (g : GUID) :
  length g = byteSize -> fields_in_range g ->
  Parse (String g)
  = match build (nth 0 g 0) (nth 1 g 0)
            (get_field g tsStart tsEnd * 1000000)
            (get_field g fpStart fpEnd) (get_field g icStart icEnd)
            (get_field g dcStart dcEnd) (get_field g rdStart rdEnd) with
    | Some g' => Some (g', None)
    | None => None
    end.
Proof.
  intros Hg Hr.
  destruct (String_pieces g Hg Hr) as (HL & Hp & Sts & Sfp & Sic & Sdc & Srd).
  destruct Hr as (Rts & Rfp & Ric & Rdc & Rrd).
  unfold Parse. rewrite HL, Nat.eqb_refl. cbn [negb].
  rewrite (nth_of_slice_prefix _ _ 0 Hp), (nth_of_slice_prefix _ _ 1 Hp)
    by lia.
  rewrite Sts, Sfp, Sic, Sdc, Srd.
  destruct (field_text_in_range g tsStart tsEnd (fieldSize * 2))
    as [_ ->]; [exact Rts | cbv; lia |].
  destruct (field_text_in_range g fpStart fpEnd fieldSize)
    as [_ ->]; [exact Rfp | cbv; lia |].
  destruct (field_text_in_range g icStart icEnd fieldSize)
    as [_ ->]; [exact Ric | cbv; lia |].
  destruct (field_text_in_range g dcStart dcEnd fieldSize)
    as [_ ->]; [exact Rdc | cbv; lia |].
  destruct (field_text_in_range g rdStart rdEnd fieldSize)
    as [_ ->]; [exact Rrd | cbv; lia |].
  rewrite !to_int32_small by assumption.
  assert (H64 : to_int64 (get_field g tsStart tsEnd * 1000000)
                = get_field g tsStart tsEnd * 1000000).
  { unfold to_int64. change (36 ^ 8) with 2821109907456 in Rts.
    change (2 ^ 63) with 9223372036854775808.
    change (2 ^ 64) with 18446744073709551616.
    rewrite Z.mod_small; lia. }
  rewrite H64. unfold build, WithPrefixBytes, time.Unix0.
  destruct (SetTime _ _) as [g1|]; [|reflexivity].
  destruct (SetFingerprint _ _) as [g2|]; [|reflexivity].
  destruct (SetCounters _ _ _) as [g3|]; [|reflexivity].
  destruct (SetRandom _ _) as [g4|]; reflexivity.
Qed.

End RoundTrip.

(** C1, as amended. For every GUID [g] built from the zero GUID by setting
    the prefix bytes and calling [SetTime], [SetFingerprint], [SetCounters]
    and [SetRandom] once each, with a time whose millisecond count lies in
    [0, 36^8) and numeric values in [0, 1679616), parsing the text of [g]
    returns [g] and no error. *)
Theorem Parse_String_roundtrip (b1 b2 : Z) (t : time.Time) (fp ic dc rd : Z) :
  0 <= time.Milliseconds (time.UnixNano t) < 36 ^ 8 ->
  0 <= fp < 1679616 -> 0 <= ic < 1679616 ->
  0 <= dc < 1679616 -> 0 <= rd < 1679616 ->
  exists g, build b1 b2 t fp ic dc rd = Some g
    /\ guid.Parse (guid.String g) = Some (g, None).
Proof.
  unfold time.UnixNano. intros Hms Hfp Hic Hdc Hrd.
  assert (Ht : is_int64 t).
  { unfold is_int64, time.Milliseconds in *.
    change (36 ^ 8) with 2821109907456 in Hms.
    change (2 ^ 63) with 9223372036854775808.
    pose proof (Z.quot_rem' t 1000000) as E.
    assert (B : Z.abs (Z.rem t 1000000) < Z.abs 1000000)
      by (apply Z.rem_bound_abs; lia).
    change (Z.abs 1000000) with 1000000 in B. lia. }
  destruct (build_fields b1 b2 t fp ic dc rd Ht)
    as (g & E & L & P0 & P1 & Gts & Gfp & Gic & Gdc & Grd).
  rewrite filter_in_range in Gfp, Gic, Gdc, Grd by assumption.
  exists g. split; [exact E|].
  rewrite Parse_String_replay;
    [| exact L
     | unfold fields_in_range; rewrite Gts, Gfp, Gic, Gdc, Grd; auto].
  rewrite P0, P1, Gts, Gfp, Gic, Gdc, Grd.
  rewrite (build_same_millisecond b1 b2 t), E; [reflexivity|].
  unfold time.Milliseconds. apply Z.quot_mul. lia.
Qed.

Lemma Parse_String_roundtrip_witness :
  exists g, build 120 111 1622222222222000000 2222 500 1000 315530 = Some g
    /\ guid.Parse (guid.String g) = Some (g, None).
Proof.
  apply Parse_String_roundtrip.
  - vm_compute. split; [intros H; discriminate H | reflexivity].
  - lia.
  - lia.
  - lia.
  - lia.
Defined.

(** C1 as stated fails. A fingerprint set to 1000 and then to 0 leaves the
    second byte of the field as the first call wrote it, and the text parses
    to the zero GUID; a time before 1970 gives a text with a sign, which does
    not parse; a time past the year 2059 gives a text of 27 characters,
    which does not parse. *)
Lemma Parse_String_counterexample :
  (exists g1 g, guid.SetFingerprint guid.zero 1000 = Some g1
     /\ guid.SetFingerprint g1 0 = Some g
     /\ guid.Parse (guid.String g) = Some (guid.zero, None)
     /\ g <> guid.zero)
  /\ (exists g, guid.SetTime guid.zero (-1000000) = Some g
     /\ guid.Parse (guid.String g) = Some (guid.zero, Some guid.InvalidTimestamp))
  /\ (exists g, guid.SetTime guid.zero 3000000000000000000 = Some g
     /\ guid.Parse (guid.String g) = Some (guid.zero, Some guid.InvalidLength)).
Proof.
  split; [|split].
  - do 2 eexists. split; [vm_compute; reflexivity|].
    split; [vm_compute; reflexivity|].
    split; [vm_compute; reflexivity|].
    vm_compute. intros H. discriminate H.
  - eexists. split; [vm_compute; reflexivity|]. vm_compute. reflexivity.
  - eexists. split; [vm_compute; reflexivity|]. vm_compute. reflexivity.
Qed.

(** * guid.go: more on [Parse] *)

Section ParseMore.

Import guid strconv.

Lemma digit_val_range (c d : Z) : digit_val c = Some d -> 0 <= d.
Proof.
  unfold digit_val. intros H.
  destruct (Z.leb_spec 48 c); destruct (Z.leb_spec c 57); cbn [andb] in H;
    try (injection H as <-; lia);
    destruct (Z.leb_spec 97 (lower c)); destruct (Z.leb_spec (lower c) 122);
    cbn [andb] in H; try discriminate H; injection H as <-; lia.
Qed.

(** The value [ParseUint] returns is the accumulator followed by one
    base-36 digit per character. *)
Lemma ParseUint_loop_bound (s : list Z) :
  forall n v,
    0 <= n -> ParseUint_loop s 36 n = Some v ->
    n * 36 ^ Z.of_nat (length s) <= v < (n + 1) * 36 ^ Z.of_nat (length s).
Proof.
  induction s as [| c s IH]; intros n v Hn H.
  - injection H as <-. cbn. lia.
  - cbn [ParseUint_loop] in H.
    destruct (digit_val c) as [d|] eqn:Ed; [|discriminate H].
    apply digit_val_range in Ed.
    destruct (Z.leb_spec 36 d); [discriminate H|].
    destruct (_ <=? n); [discriminate H|].
    destruct (_ <? n * 36 + d); [discriminate H|].
    apply IH in H; [|lia].
    cbn [length]. rewrite pow36_succ.
    assert (0 < 36 ^ Z.of_nat (length s)) by (apply Z.pow_pos_nonneg; lia).
    nia.
Qed.

Lemma ParseInt_bound (s : list Z) (v : Z) :
  ParseInt s 36 = Some v ->
  - 36 ^ Z.of_nat (length s) < v < 36 ^ Z.of_nat (length s).
Proof.
  unfold ParseInt. destruct s as [| c s]; [discriminate|].
  set (neg := c =? 45). set (body := if (c =? 43) || neg then s else c :: s).
  intros H. destruct (ParseUint body 36) as [un|] eqn:E; [|discriminate H].
  assert (Hun : 0 <= un < 36 ^ Z.of_nat (length (c :: s))).
  { unfold ParseUint in E.
    assert (E' : ParseUint_loop body 36 0 = Some un)
      by (destruct body; [discriminate E | exact E]).
    apply ParseUint_loop_bound in E'; [|lia].
    assert (Hlen : (length body <= length (c :: s))%nat)
      by (unfold body; destruct ((c =? 43) || neg); cbn [length]; lia).
    assert (36 ^ Z.of_nat (length body) <= 36 ^ Z.of_nat (length (c :: s)))
      by (apply Z.pow_le_mono_r; lia).
    lia. }
  destruct (negb neg && (2 ^ 63 <=? un)); [discriminate H|].
  destruct (neg && (2 ^ 63 <? un)); [discriminate H|].
  injection H as <-. destruct neg; lia.
Qed.

Lemma is_alnum_digit_val (c : Z) :
  is_alnum c = true ->
  exists d, digit_val c = Some d /\ 0 <= d < 36 /\ c <> 43 /\ c <> 45.
Proof.
  intros H.
  assert (Hb : byte_ok c).
  { unfold is_alnum in H. unfold byte_ok.
    apply orb_prop in H. destruct H as [H | H];
      [apply orb_prop in H; destruct H as [H | H]|];
      apply andb_prop in H; destruct H as [H1 H2];
      apply Z.leb_le in H1, H2; lia. }
  pose (P := fun c =>
    if is_alnum c
    then match digit_val c with
         | Some d => (0 <=? d) && (d <? 36) && negb (c =? 43) && negb (c =? 45)
         | None => false
         end
    else true).
  assert (HP : P c = true) by (apply byte_cases; [vm_compute; reflexivity | exact Hb]).
  unfold P in HP. rewrite H in HP.
  destruct (digit_val c) as [d|]; [|discriminate HP].
  exists d. repeat (apply andb_prop in HP; destruct HP as [HP ?]).
  split; [reflexivity|].
  repeat match goal with
         | X : negb (_ =? _) = true |- _ =>
             apply negb_true_iff in X; apply Z.eqb_neq in X
         end.
  lia.
Qed.

Lemma ParseUint_loop_alnum (s : list Z) :
  forall n,
    Forall (fun c => is_alnum c = true) s -> 0 <= n ->
    (n + 1) * 36 ^ Z.of_nat (length s) <= 2 ^ 64 ->
    exists v, ParseUint_loop s 36 n = Some v.
Proof.
  induction s as [| c s IH]; intros n Hs Hn Hb; [eexists; reflexivity|].
  inversion Hs as [| ? ? Hc Hs']; subst.
  destruct (is_alnum_digit_val c Hc) as (d & Ed & Hd & _).
  cbn [ParseUint_loop]. rewrite Ed.
  cbn [length] in Hb. rewrite pow36_succ in Hb.
  assert (0 < 36 ^ Z.of_nat (length s)) by (apply Z.pow_pos_nonneg; lia).
  change ((2 ^ 64 - 1) / 36 + 1) with 512409557603043101.
  change (2 ^ 64) with 18446744073709551616 in *.
  destruct (Z.leb_spec 36 d); [lia|].
  destruct (Z.leb_spec 512409557603043101 n); [nia|].
  destruct (Z.ltb_spec (18446744073709551616 - 1) (n * 36 + d)); [nia|].
  apply IH; [exact Hs' | lia | nia].
Qed.

(** [ParseInt] accepts every non-empty string of at most 12 letters and
    digits. *)
Lemma ParseInt_alnum (s : list Z) :
  Forall (fun c => is_alnum c = true) s -> (1 <= length s <= 12)%nat ->
  exists v, ParseInt s 36 = Some v.
Proof.
  intros Hs Hlen.
  assert (Hp : 36 ^ Z.of_nat (length s) < 2 ^ 63) by (apply pow36_bound; lia).
  destruct (ParseUint_loop_alnum s 0 Hs) as [v E];
    [lia | change (2 ^ 64) with (2 * 2 ^ 63); lia|].
  pose proof (ParseUint_loop_bound s 0 v ltac:(lia) E) as Hv.
  destruct s as [| c s]; [cbn in Hlen; lia|].
  inversion Hs as [| ? ? Hc _]; subst.
  destruct (is_alnum_digit_val c Hc) as (_ & _ & _ & H43 & H45).
  unfold ParseInt.
  destruct (Z.eqb_spec c 45); [contradiction|].
  destruct (Z.eqb_spec c 43); [contradiction|].
  cbn [orb negb andb]. unfold ParseUint. rewrite E.
  destruct (Z.leb_spec (2 ^ 63) v); [lia|]. eexists. reflexivity.
Qed.

Lemma Forall_slice (P : Z -> Prop) (l : list Z) (lo hi : nat) :
  (hi <= length l)%nat ->
  (forall k, (lo <= k < hi)%nat -> P (nth k l 0)) ->
  Forall P (slice l lo hi).
Proof.
  intros Hhi H. apply Forall_nth. intros i d Hi.
  rewrite length_slice in Hi by exact Hhi.
  rewrite (nth_indep _ d 0) by (rewrite length_slice; assumption).
  rewrite nth_slice by exact Hi. apply H. lia.
Qed.

Lemma digit_val_upper (c : Z) : digit_val (upper c) = digit_val c.
Proof.
  unfold upper.
  destruct (Z.leb_spec 97 c); destruct (Z.leb_spec c 122); cbn [andb];
    try reflexivity.
  pose (P := fun c =>
    if (97 <=? c) && (c <=? 122)
    then match digit_val (c - 32), digit_val c with
         | Some a, Some b => a =? b
         | _, _ => false
         end
    else true).
  assert (HP : P c = true)
    by (apply byte_cases; [vm_compute; reflexivity | unfold byte_ok; lia]).
  unfold P in HP.
  destruct (Z.leb_spec 97 c); [|lia]. destruct (Z.leb_spec c 122); [|lia].
  cbn [andb] in HP.
  destruct (digit_val (c - 32)); [|discriminate HP].
  destruct (digit_val c); [|discriminate HP].
  apply Z.eqb_eq in HP. congruence.
Qed.

Lemma ParseUint_loop_upper (s : list Z) :
  forall n, ParseUint_loop (map upper s) 36 n = ParseUint_loop s 36 n.
Proof.
  induction s as [| c s IH]; intros n; [reflexivity|].
  cbn [map ParseUint_loop]. rewrite digit_val_upper.
  destruct (digit_val c); [|reflexivity].
  destruct (36 <=? z); [reflexivity|].
  destruct (_ <=? n); [reflexivity|].
  destruct (_ <? _); [reflexivity | apply IH].
Qed.

Lemma upper_sign (c : Z) :
  (upper c =? 45) = (c =? 45) /\ (upper c =? 43) = (c =? 43).
Proof.
  unfold upper.
  destruct (Z.leb_spec 97 c); destruct (Z.leb_spec c 122); cbn [andb];
    try (split; reflexivity).
  split.
  - destruct (Z.eqb_spec (c - 32) 45); destruct (Z.eqb_spec c 45);
      try reflexivity; lia.
  - destruct (Z.eqb_spec (c - 32) 43); destruct (Z.eqb_spec c 43);
      try reflexivity; lia.
Qed.

Lemma ParseInt_upper (s : list Z) :
  ParseInt (map upper s) 36 = ParseInt s 36.
Proof.
  destruct s as [| c s]; [reflexivity|].
  unfold ParseInt. cbn [map]. destruct (upper_sign c) as [-> ->].
  assert (Hu : forall l, ParseUint (map upper l) 36 = ParseUint l 36).
  { intros [| x l]; [reflexivity|]. unfold ParseUint.
    change (map upper (x :: l)) with (upper x :: map upper l).
    apply (ParseUint_loop_upper (x :: l)). }
  destruct ((c =? 43) || (c =? 45)).
  - rewrite Hu. reflexivity.
  - change (upper c :: map upper s) with (map upper (c :: s)).
    rewrite (Hu (c :: s)). reflexivity.
Qed.

Lemma slice_map_upper (l : list Z) (lo hi : nat) :
  slice (map upper l) lo hi = map upper (slice l lo hi).
Proof. unfold slice. rewrite skipn_map, firstn_map. reflexivity. Qed.

Lemma is_int64_to_int64 (x : Z) : is_int64 (to_int64 x).
Proof.
  unfold is_int64, to_int64.
  pose proof (Z.mod_pos_bound (x + 2 ^ 63) (2 ^ 64) ltac:(lia)).
  change (2 ^ 64) with (2 * 2 ^ 63) in *. lia.
Qed.

(** When the five fields parse, [Parse] is the setter chain from the zero
    value. *)
Lemma Parse_fields_build (inp : list Z) (t fp ic dc rd : Z) :
  length inp = byteSize ->
  ParseInt (slice inp tsStart tsEnd) base = Some t ->
  ParseInt (slice inp fpStart fpEnd) base = Some fp ->
  ParseInt (slice inp icStart icEnd) base = Some ic ->
  ParseInt (slice inp dcStart dcEnd) base = Some dc ->
  ParseInt (slice inp rdStart rdEnd) base = Some rd ->
  Parse inp
  = match build (nth 0 inp 0) (nth 1 inp 0) (to_int64 (t * 1000000))
            (to_int32 fp) (to_int32 ic) (to_int32 dc) (to_int32 rd) with
    | Some g => Some (g, None)
    | None => None
    end.
Proof.
  intros Hlen Hts Hfp Hic Hdc Hrd. unfold Parse.
  rewrite Hlen, Nat.eqb_refl, Hts, Hfp, Hic, Hdc, Hrd. cbn [negb].
  unfold build, WithPrefixBytes, time.Unix0.
  destruct (SetTime _ _) as [g1|]; [|reflexivity].
  destruct (SetFingerprint _ _) as [g2|]; [|reflexivity].
  destruct (SetCounters _ _ _) as [g3|]; [|reflexivity].
  destruct (SetRandom _ _) as [g4|]; reflexivity.
Qed.

(** What a successful [Parse] went through. *)
Lemma Parse_success_inv (inp : list Z) (g : GUID) :
  Parse inp = Some (g, None) ->
  length inp = byteSize
  /\ exists t fp ic dc rd,
       ParseInt (slice inp tsStart tsEnd) base = Some t
       /\ ParseInt (slice inp fpStart fpEnd) base = Some fp
       /\ ParseInt (slice inp icStart icEnd) base = Some ic
       /\ ParseInt (slice inp dcStart dcEnd) base = Some dc
       /\ ParseInt (slice inp rdStart rdEnd) base = Some rd.
Proof.
  unfold Parse. intros H.
  destruct (Nat.eqb_spec (length inp) byteSize) as [Hlen | _];
    [|discriminate H].
  cbn [negb] in H. split; [exact Hlen|].
  destruct (ParseInt (slice inp tsStart tsEnd) base) as [t|];
    [|discriminate H].
  destruct (SetTime _ _) as [g1|]; [|discriminate H].
  destruct (ParseInt (slice inp fpStart fpEnd) base) as [fp|];
    [|discriminate H].
  destruct (SetFingerprint _ _) as [g2|]; [|discriminate H].
  destruct (ParseInt (slice inp icStart icEnd) base) as [ic|];
    [|discriminate H].
  destruct (ParseInt (slice inp dcStart dcEnd) base) as [dc|];
    [|discriminate H].
  destruct (SetCounters _ _ _) as [g3|]; [|discriminate H].
  destruct (ParseInt (slice inp rdStart rdEnd) base) as [rd|];
    [|discriminate H].
  exists t, fp, ic, dc, rd. repeat split.
Qed.

Lemma parsed_time_exact (t : Z) :
  - 36 ^ 8 < t < 36 ^ 8 ->
  to_int64 (t * 1000000) = t * 1000000
  /\ time.Milliseconds (to_int64 (t * 1000000)) = t.
Proof.
  intros Ht. change (36 ^ 8) with 2821109907456 in Ht.
  assert (E : to_int64 (t * 1000000) = t * 1000000).
  { unfold to_int64. change (2 ^ 63) with 9223372036854775808.
    change (2 ^ 64) with 18446744073709551616.
    rewrite Z.mod_small; lia. }
  split; [exact E|]. rewrite E. unfold time.Milliseconds.
  apply Z.quot_mul. lia.
Qed.

Lemma parsed_field_exact (v : Z) :
  - 36 ^ 4 < v < 36 ^ 4 -> to_int32 v = v.
Proof.
  intros Hv. change (36 ^ 4) with 1679616 in Hv. unfold to_int32.
  change (2 ^ 31) with 2147483648. change (2 ^ 32) with 4294967296.
  rewrite Z.mod_small; lia.
Qed.

End ParseMore.

Section ParseExtras.

Import guid strconv.

Lemma SetTime_keeps_length (g : GUID) (t : time.Time) :
  length g = byteSize -> is_int64 t ->
  exists g', SetTime g t = Some g' /\ length g' = byteSize.
Proof.
  intros Hg Ht. destruct (SetTime_total g t Hg Ht) as [g' E].
  exists g'. split; [exact E|].
  destruct (put_field_frame _ _ _ _ _ E) as (Hl & _);
    [rewrite Hg; cbv; lia | congruence].
Qed.

Lemma SetFingerprint_keeps_length (g : GUID) (v : Z) :
  length g = byteSize ->
  exists g', SetFingerprint g v = Some g' /\ length g' = byteSize.
Proof.
  intros Hg. destruct (put_filter_step g fpStart v Hg) as (g' & E & L & _);
    [cbv; lia | eauto].
Qed.

Lemma SetCounters_keeps_length (g : GUID) (incr decr : Z) :
  length g = byteSize ->
  exists g', SetCounters g incr decr = Some g' /\ length g' = byteSize.
Proof.
  intros Hg. unfold SetCounters.
  destruct (put_filter_step g icStart incr Hg) as (g1 & E1 & L1 & _);
    [cbv; lia|].
  destruct (put_filter_step g1 dcStart decr L1) as (g2 & E2 & L2 & _);
    [cbv; lia|].
  change icEnd with (icStart + fieldSize)%nat. rewrite E1. eauto.
Qed.

Lemma SetRandom_keeps_length (g : GUID) (v : Z) :
  length g = byteSize ->
  exists g', SetRandom g v = Some g' /\ length g' = byteSize.
Proof.
  intros Hg. destruct (put_filter_step g rdStart v Hg) as (g' & E & L & _);
    [cbv; lia | eauto].
Qed.

End ParseExtras.

(** The three outcomes of [Parse]. *)
Lemma Parse_outcome (inp : list Z) :
  exists g e,
    guid.Parse inp = Some (g, e)
    /\ (e <> None -> g = guid.zero)
    /\ (e = None ->
        length g = guid.byteSize
        /\ guid.PrefixBytes g = (nth 0 inp 0, nth 1 inp 0)).
Proof.
  assert (Herr : forall x : guid.ParseError,
            exists g e, Some (guid.zero, Some x) = Some (g, e)
              /\ (e <> None -> g = guid.zero)
              /\ (e = None ->
                  length g = guid.byteSize
                  /\ guid.PrefixBytes g = (nth 0 inp 0, nth 1 inp 0))).
  { intros x. exists guid.zero, (Some x). split; [reflexivity|].
    split; [reflexivity | discriminate]. }
  destruct (Nat.eqb_spec (length inp) guid.byteSize) as [Hlen | Hlen].
  2:{ unfold guid.Parse.
      destruct (Nat.eqb_spec (length inp) guid.byteSize); [contradiction|].
      apply Herr. }
  destruct (strconv.ParseInt (slice inp guid.tsStart guid.tsEnd) guid.base)
    as [t|] eqn:Ets.
  2:{ unfold guid.Parse. rewrite Hlen, Nat.eqb_refl, Ets. apply Herr. }
  destruct (strconv.ParseInt (slice inp guid.fpStart guid.fpEnd) guid.base)
    as [fp|] eqn:Efp.
  2:{ unfold guid.Parse. rewrite Hlen, Nat.eqb_refl, Ets, Efp. cbn [negb].
      destruct (SetTime_keeps_length
                  (store (store guid.zero 0 (nth 0 inp 0)) 1 (nth 1 inp 0))
                  (time.Unix0 (to_int64 (t * 1000000))))
        as (g1 & -> & _); [reflexivity | apply is_int64_to_int64|].
      apply Herr. }
  destruct (strconv.ParseInt (slice inp guid.icStart guid.icEnd) guid.base)
    as [ic|] eqn:Eic;
    destruct (strconv.ParseInt (slice inp guid.dcStart guid.dcEnd) guid.base)
      as [dc|] eqn:Edc;
    try (unfold guid.Parse;
         rewrite Hlen, Nat.eqb_refl, Ets, Efp, Eic, ?Edc; cbn [negb];
         destruct (SetTime_keeps_length
                     (store (store guid.zero 0 (nth 0 inp 0)) 1 (nth 1 inp 0))
                     (time.Unix0 (to_int64 (t * 1000000))))
           as (g1 & -> & L1); [reflexivity | apply is_int64_to_int64|];
         destruct (SetFingerprint_keeps_length g1 (to_int32 fp) L1)
           as (g2 & -> & L2);
         apply Herr).
  destruct (strconv.ParseInt (slice inp guid.rdStart guid.rdEnd) guid.base)
    as [rd|] eqn:Erd.
  2:{ unfold guid.Parse.
      rewrite Hlen, Nat.eqb_refl, Ets, Efp, Eic, Edc, Erd. cbn [negb].
      destruct (SetTime_keeps_length
                  (store (store guid.zero 0 (nth 0 inp 0)) 1 (nth 1 inp 0))
                  (time.Unix0 (to_int64 (t * 1000000))))
        as (g1 & -> & L1); [reflexivity | apply is_int64_to_int64|].
      destruct (SetFingerprint_keeps_length g1 (to_int32 fp) L1)
        as (g2 & -> & L2).
      destruct (SetCounters_keeps_length g2 (to_int32 ic) (to_int32 dc) L2)
        as (g3 & -> & L3).
      apply Herr. }
  rewrite (Parse_fields_build inp t fp ic dc rd Hlen Ets Efp Eic Edc Erd).
  destruct (build_fields (nth 0 inp 0) (nth 1 inp 0) (to_int64 (t * 1000000))
              (to_int32 fp) (to_int32 ic) (to_int32 dc) (to_int32 rd)
              (is_int64_to_int64 _))
    as (g & -> & L & P0 & P1 & _).
  exists g, None. split; [reflexivity|].
  split; [intros H; contradiction|].
  intros _. split; [exact L|]. unfold guid.PrefixBytes. congruence.
Qed.

(** X1. [Parse] never panics: on every input it returns; with an error it
    returns the zero GUID, and without one a 26-byte GUID carrying the
    first two input bytes as its prefix. *)
Theorem Parse_never_panics (inp : list Z) :
  exists g e,
    guid.Parse inp = Some (g, e)
    /\ (e <> None -> g = guid.zero)
    /\ (e = None ->
        length g = guid.byteSize
        /\ guid.PrefixBytes g = (nth 0 inp 0, nth 1 inp 0)).
Proof. apply Parse_outcome. Qed.

Lemma Parse_never_panics_witness :
  exists g e,
    guid.Parse (bytes_of "xokp8l85n2!!pq00dw00rs6rgq") = Some (g, e)
    /\ (e <> None -> g = guid.zero)
    /\ (e = None ->
        length g = guid.byteSize
        /\ guid.PrefixBytes g
           = (nth 0 (bytes_of "xokp8l85n2!!pq00dw00rs6rgq") 0,
              nth 1 (bytes_of "xokp8l85n2!!pq00dw00rs6rgq") 0)).
Proof. apply Parse_never_panics. Defined.

(** X2. [Parse] accepts every 26-byte input whose bytes 2-25 are ASCII
    letters or digits, whatever the two prefix bytes are. *)
Theorem Parse_accepts_alnum (inp : list Z) :
  length inp = guid.byteSize ->
  (forall k, (2 <= k < 26)%nat -> is_alnum (nth k inp 0) = true) ->
  exists g, guid.Parse inp = Some (g, None).
Proof.
  intros Hlen Hal.
  assert (Hf : forall lo hi, (2 <= lo)%nat -> (hi <= 26)%nat ->
            (1 <= hi - lo <= 12)%nat ->
            exists v, strconv.ParseInt (slice inp lo hi) guid.base = Some v).
  { intros lo hi Hlo Hhi Hw. apply ParseInt_alnum.
    - apply Forall_slice; [rewrite Hlen; exact Hhi|].
      intros k Hk. apply Hal. lia.
    - rewrite length_slice by (rewrite Hlen; exact Hhi). exact Hw. }
  destruct (Hf guid.tsStart guid.tsEnd) as [t Ets]; 
    [cbv; lia | cbv; lia | cbv; lia |].
  destruct (Hf guid.fpStart guid.fpEnd) as [fp Efp]; 
    [cbv; lia | cbv; lia | cbv; lia |].
  destruct (Hf guid.icStart guid.icEnd) as [ic Eic]; 
    [cbv; lia | cbv; lia | cbv; lia |].
  destruct (Hf guid.dcStart guid.dcEnd) as [dc Edc]; 
    [cbv; lia | cbv; lia | cbv; lia |].
  destruct (Hf guid.rdStart guid.rdEnd) as [rd Erd]; 
    [cbv; lia | cbv; lia | cbv; lia |].
  rewrite (Parse_fields_build inp t fp ic dc rd Hlen Ets Efp Eic Edc Erd).
  destruct (build_fields (nth 0 inp 0) (nth 1 inp 0) (to_int64 (t * 1000000))
              (to_int32 fp) (to_int32 ic) (to_int32 dc) (to_int32 rd)
              (is_int64_to_int64 _))
    as (g & -> & _).
  exists g. reflexivity.
Qed.

Lemma Parse_accepts_alnum_witness :
  exists g, guid.Parse (bytes_of "!?KUH4byaw2W910000m6RLBQiq") = Some (g, None).
Proof.
  apply Parse_accepts_alnum; [reflexivity|].
  intros k Hk. do 2 (destruct k as [| k]; [lia|]).
  do 24 (destruct k as [| k]; [reflexivity|]). lia.
Defined.

(** X3. [Parse] is case-insensitive after the two prefix bytes: turning
    lower-case letters of bytes 2-25 to upper case changes neither the GUID
    nor the error returned. *)
Theorem Parse_ignores_case (p1 p2 : Z) (rest : list Z) :
  guid.Parse (p1 :: p2 :: map upper rest) = guid.Parse (p1 :: p2 :: rest).
Proof.
  assert (Hs : forall lo hi,
            slice (p1 :: p2 :: map upper rest) (2 + lo) (2 + hi)
            = map upper (slice (p1 :: p2 :: rest) (2 + lo) (2 + hi))).
  { intros lo hi. unfold slice. cbn [Nat.add skipn Nat.sub].
    rewrite skipn_map, firstn_map. reflexivity. }
  unfold guid.Parse. cbn [length nth]. rewrite length_map.
  change guid.tsStart with (2 + 0)%nat. change guid.tsEnd with (2 + 8)%nat.
  change guid.fpStart with (2 + 8)%nat. change guid.fpEnd with (2 + 12)%nat.
  change guid.icStart with (2 + 12)%nat. change guid.icEnd with (2 + 16)%nat.
  change guid.dcStart with (2 + 16)%nat. change guid.dcEnd with (2 + 20)%nat.
  change guid.rdStart with (2 + 20)%nat. change guid.rdEnd with (2 + 24)%nat.
  rewrite !Hs. unfold guid.base. rewrite !ParseInt_upper. reflexivity.
Qed.

(** X4. A GUID that [Parse] returned with a timestamp that is not negative
    is a fixed point of the text round trip: [Parse (String g)] returns it
    again without error. *)
Theorem Parse_String_of_parsed (inp : list Z) (g : guid.GUID) :
  guid.Parse inp = Some (g, None) ->
  0 <= time.UnixNano (guid.Time g) ->
  guid.Parse (guid.String g) = Some (g, None).
Proof.
  intros HP Hnn.
  destruct (Parse_success_inv inp g HP)
    as (Hlen & t & fp & ic & dc & rd & Ets & Efp & Eic & Edc & Erd).
  rewrite (Parse_fields_build inp t fp ic dc rd Hlen Ets Efp Eic Edc Erd) in HP.
  pose proof (ParseInt_bound _ _ Ets) as Bt.
  rewrite length_slice in Bt by (rewrite Hlen; cbv; lia).
  change (36 ^ Z.of_nat (guid.tsEnd - guid.tsStart)) with (36 ^ 8) in Bt.
  destruct (parsed_time_exact t Bt) as [E64 Ems].
  destruct (build_fields (nth 0 inp 0) (nth 1 inp 0) (to_int64 (t * 1000000))
              (to_int32 fp) (to_int32 ic) (to_int32 dc) (to_int32 rd)
              (is_int64_to_int64 _))
    as (g' & Eb & L & P0 & P1 & Gts & Gfp & Gic & Gdc & Grd).
  rewrite Eb in HP. injection HP as ->.
  rewrite Ems in Gts.
  assert (Ht0 : 0 <= t).
  { unfold guid.Time, time.UnixNano, time.Unix0 in Hnn.
    rewrite Gts, E64 in Hnn. lia. }
  rewrite Parse_String_replay.
  - rewrite P0, P1, Gts, Gfp, Gic, Gdc, Grd.
    assert (Hb : build (nth 0 inp 0) (nth 1 inp 0) (t * 1000000)
                   (guid.filter (to_int32 fp)) (guid.filter (to_int32 ic))
                   (guid.filter (to_int32 dc)) (guid.filter (to_int32 rd))
                 = Some g).
    { rewrite <- Eb, E64. unfold build, guid.SetFingerprint,
        guid.SetCounters, guid.SetRandom.
      rewrite !(filter_in_range (guid.filter _)) by apply filter_range.
      reflexivity. }
    rewrite Hb. reflexivity.
  - exact L.
  - unfold fields_in_range. rewrite Gts, Gfp, Gic, Gdc, Grd.
    split; [lia|]. repeat split; apply filter_range.
Qed.

Lemma Parse_String_of_parsed_witness :
  guid.Parse (guid.String (parsed "xoKP8l85N201PQ00DW00RS6RGQ"))
  = Some (parsed "xoKP8l85N201PQ00DW00RS6RGQ", None).
Proof.
  apply (Parse_String_of_parsed (bytes_of "xoKP8l85N201PQ00DW00RS6RGQ")).
  - vm_compute. reflexivity.
  - vm_compute. intros H. discriminate H.
Defined.

(** X5. A successful [Parse] decodes each field: the timestamp getter gives
    the parsed milliseconds as nanoseconds, and the fingerprint, counter and
    random getters give the parsed numbers modulo 1,679,616. *)
Theorem Parse_getters (inp : list Z) (g : guid.GUID) :
  guid.Parse inp = Some (g, None) ->
  exists t fp ic dc rd,
    strconv.ParseInt (slice inp 2 10) 36 = Some t
    /\ strconv.ParseInt (slice inp 10 14) 36 = Some fp
    /\ strconv.ParseInt (slice inp 14 18) 36 = Some ic
    /\ strconv.ParseInt (slice inp 18 22) 36 = Some dc
    /\ strconv.ParseInt (slice inp 22 26) 36 = Some rd
    /\ time.UnixNano (guid.Time g) = t * 1000000
    /\ guid.Fingerprint g = fp mod 1679616
    /\ guid.Counters g = (ic mod 1679616, dc mod 1679616)
    /\ guid.Random g = rd mod 1679616.
Proof.
  intros HP.
  destruct (Parse_success_inv inp g HP)
    as (Hlen & t & fp & ic & dc & rd & Ets & Efp & Eic & Edc & Erd).
  exists t, fp, ic, dc, rd.
  do 5 (split; [assumption|]).
  rewrite (Parse_fields_build inp t fp ic dc rd Hlen Ets Efp Eic Edc Erd) in HP.
  assert (B : forall lo hi v, (hi <= 26)%nat ->
            strconv.ParseInt (slice inp lo hi) guid.base = Some v ->
            - 36 ^ Z.of_nat (hi - lo) < v < 36 ^ Z.of_nat (hi - lo)).
  { intros lo hi v Hhi E. apply ParseInt_bound in E.
    rewrite length_slice in E by (rewrite Hlen; exact Hhi). exact E. }
  destruct (parsed_time_exact t
              (B guid.tsStart guid.tsEnd t ltac:(cbv; lia) Ets)) as [E64 Ems].
  pose proof (parsed_field_exact fp
                (B guid.fpStart guid.fpEnd fp ltac:(cbv; lia) Efp)) as Xfp.
  pose proof (parsed_field_exact ic
                (B guid.icStart guid.icEnd ic ltac:(cbv; lia) Eic)) as Xic.
  pose proof (parsed_field_exact dc
                (B guid.dcStart guid.dcEnd dc ltac:(cbv; lia) Edc)) as Xdc.
  pose proof (parsed_field_exact rd
                (B guid.rdStart guid.rdEnd rd ltac:(cbv; lia) Erd)) as Xrd.
  destruct (build_fields (nth 0 inp 0) (nth 1 inp 0) (to_int64 (t * 1000000))
              (to_int32 fp) (to_int32 ic) (to_int32 dc) (to_int32 rd)
              (is_int64_to_int64 _))
    as (g' & Eb & L & P0 & P1 & Gts & Gfp & Gic & Gdc & Grd).
  rewrite Eb in HP. injection HP as ->.
  rewrite Ems in Gts. rewrite Xfp in Gfp. rewrite Xic in Gic.
  rewrite Xdc in Gdc. rewrite Xrd in Grd.
  unfold guid.Time, guid.Fingerprint, guid.Counters, guid.Random,
    time.UnixNano, time.Unix0.
  rewrite Gts, Gfp, Gic, Gdc, Grd, E64.
  rewrite !to_int32_small by apply filter_range.
  repeat split.
Qed.

Lemma Parse_getters_witness :
  exists t fp ic dc rd,
    strconv.ParseInt (slice (bytes_of "xokp8l85n201pq00dw00rs6rgq") 2 10) 36
    = Some t
    /\ strconv.ParseInt (slice (bytes_of "xokp8l85n201pq00dw00rs6rgq") 10 14) 36
       = Some fp
    /\ strconv.ParseInt (slice (bytes_of "xokp8l85n201pq00dw00rs6rgq") 14 18) 36
       = Some ic
    /\ strconv.ParseInt (slice (bytes_of "xokp8l85n201pq00dw00rs6rgq") 18 22) 36
       = Some dc
    /\ strconv.ParseInt (slice (bytes_of "xokp8l85n201pq00dw00rs6rgq") 22 26) 36
       = Some rd
    /\ time.UnixNano (guid.Time (parsed "xokp8l85n201pq00dw00rs6rgq"))
       = t * 1000000
    /\ guid.Fingerprint (parsed "xokp8l85n201pq00dw00rs6rgq") = fp mod 1679616
    /\ guid.Counters (parsed "xokp8l85n201pq00dw00rs6rgq")
       = (ic mod 1679616, dc mod 1679616)
    /\ guid.Random (parsed "xokp8l85n201pq00dw00rs6rgq") = rd mod 1679616.
Proof.
  apply (Parse_getters (bytes_of "xokp8l85n201pq00dw00rs6rgq")).
  vm_compute. reflexivity.
Defined.

Section SetterExtras.

Import guid.

Lemma PutVarint_length (buf buf' : list Z) (x : Z) :
  binary.PutVarint buf x = Some buf' -> length buf' = length buf.
Proof. unfold binary.PutVarint. apply PutUvarint_length. Qed.

(** Writes to two disjoint fields can be done in either order. *)
Lemma put_field_comm (g : GUID) (lo hi lo2 hi2 : nat) (x y : Z) :
  (lo <= hi)%nat -> (hi <= lo2)%nat -> (lo2 <= hi2 <= length g)%nat ->
  and_then (put_field g lo hi x) (fun g1 => put_field g1 lo2 hi2 y)
  = and_then (put_field g lo2 hi2 y) (fun g1 => put_field g1 lo hi x).
Proof.
  intros H1 H2 H3. unfold put_field.
  destruct (binary.PutVarint (slice g lo hi) x) as [v1|] eqn:E1;
    destruct (binary.PutVarint (slice g lo2 hi2) y) as [v2|] eqn:E2;
    cbn [and_then]; try reflexivity.
  - pose proof (PutVarint_length _ _ _ E1) as L1.
    pose proof (PutVarint_length _ _ _ E2) as L2.
    rewrite length_slice in L1, L2 by lia.
    assert (S1 : slice (write_slice g lo hi v1) lo2 hi2 = slice g lo2 hi2).
    { apply slice_ext; [apply length_write_slice; lia|].
      intros k Hk. apply nth_write_slice_outside; lia. }
    assert (S2 : slice (write_slice g lo2 hi2 v2) lo hi = slice g lo hi).
    { apply slice_ext; [apply length_write_slice; lia|].
      intros k Hk. apply nth_write_slice_outside; lia. }
    rewrite S1, S2, E1, E2. f_equal.
    apply nth_ext with (d := 0) (d' := 0).
    + rewrite !length_write_slice; rewrite ?length_write_slice; lia.
    + intros k _.
      destruct (Nat.lt_ge_cases k lo); [|destruct (Nat.lt_ge_cases k hi);
        [|destruct (Nat.lt_ge_cases k lo2); [|destruct (Nat.lt_ge_cases k hi2)]]].
      * rewrite !nth_write_slice_outside;
          rewrite ?length_write_slice; (reflexivity || lia).
      * rewrite (nth_write_slice_outside _ lo2 hi2), !nth_write_slice_inside;
          rewrite ?length_write_slice; (reflexivity || lia).
      * rewrite !nth_write_slice_outside;
          rewrite ?length_write_slice; (reflexivity || lia).
      * rewrite (nth_write_slice_outside _ lo hi), !nth_write_slice_inside;
          rewrite ?length_write_slice; (reflexivity || lia).
      * rewrite !nth_write_slice_outside;
          rewrite ?length_write_slice; (reflexivity || lia).
  - pose proof (PutVarint_length _ _ _ E1) as L1.
    rewrite length_slice in L1 by lia.
    assert (S1 : slice (write_slice g lo hi v1) lo2 hi2 = slice g lo2 hi2).
    { apply slice_ext; [apply length_write_slice; lia|].
      intros k Hk. apply nth_write_slice_outside; lia. }
    rewrite S1, E2. reflexivity.
  - pose proof (PutVarint_length _ _ _ E2) as L2.
    rewrite length_slice in L2 by lia.
    assert (S2 : slice (write_slice g lo2 hi2 v2) lo hi = slice g lo hi).
    { apply slice_ext; [apply length_write_slice; lia|].
      intros k Hk. apply nth_write_slice_outside; lia. }
    rewrite S2, E1. reflexivity.
Qed.

Lemma put_field_length (g g' : GUID) (lo hi : nat) (x : Z) :
  put_field g lo hi x = Some g' -> (lo <= hi <= length g)%nat ->
  length g' = length g.
Proof. intros H Hr. now destruct (put_field_frame _ _ _ _ _ H Hr). Qed.

(** [SetCounters] and a write to a field before or after the counters can
    be done in either order. *)
Lemma SetCounters_comm_before (g : GUID) (lo hi : nat) (x incr decr : Z) :
  length g = byteSize -> (lo <= hi <= icStart)%nat ->
  and_then (put_field g lo hi x) (fun g1 => SetCounters g1 incr decr)
  = and_then (SetCounters g incr decr) (fun g1 => put_field g1 lo hi x).
Proof.
  intros Hg Hr. unfold SetCounters.
  assert (Hic : (icStart <= icEnd <= byteSize)%nat) by (cbv; lia).
  assert (Hdc : (icEnd <= dcStart /\ dcStart <= dcEnd <= byteSize)%nat)
    by (cbv; lia).
  pose proof (put_field_comm g lo hi icStart icEnd x (filter incr)
                ltac:(lia) ltac:(lia) ltac:(lia)) as C1.
  destruct (put_field g lo hi x) as [g2|] eqn:E2;
    destruct (put_field g icStart icEnd (filter incr)) as [g1|] eqn:E1;
    cbn [and_then] in C1 |- *.
  - rewrite C1.
    pose proof (put_field_length _ _ _ _ _ E1 ltac:(lia)) as L1.
    apply (put_field_comm g1 lo hi dcStart dcEnd x (filter decr)); lia.
  - rewrite C1. reflexivity.
  - pose proof (put_field_length _ _ _ _ _ E1 ltac:(lia)) as L1.
    pose proof (put_field_comm g1 lo hi dcStart dcEnd x (filter decr)
                  ltac:(lia) ltac:(lia) ltac:(lia)) as C2.
    rewrite <- C1 in C2. cbn [and_then] in C2. exact C2.
  - reflexivity.
Qed.

Lemma SetCounters_comm_after (g : GUID) (lo hi : nat) (x incr decr : Z) :
  length g = byteSize -> (dcEnd <= lo /\ lo <= hi <= byteSize)%nat ->
  and_then (SetCounters g incr decr) (fun g1 => put_field g1 lo hi x)
  = and_then (put_field g lo hi x) (fun g1 => SetCounters g1 incr decr).
Proof.
  intros Hg Hr. unfold SetCounters.
  assert (Hic : (icStart <= icEnd <= byteSize)%nat) by (cbv; lia).
  assert (Hdc : (icEnd <= dcStart /\ dcStart <= dcEnd <= byteSize)%nat)
    by (cbv; lia).
  pose proof (put_field_comm g icStart icEnd lo hi (filter incr) x
                ltac:(lia) ltac:(lia) ltac:(lia)) as C1.
  destruct (put_field g lo hi x) as [g2|] eqn:E2;
    destruct (put_field g icStart icEnd (filter incr)) as [g1|] eqn:E1;
    cbn [and_then] in C1 |- *.
  - rewrite <- C1.
    pose proof (put_field_length _ _ _ _ _ E1 ltac:(lia)) as L1.
    apply (put_field_comm g1 dcStart dcEnd lo hi (filter decr) x); lia.
  - rewrite <- C1. reflexivity.
  - pose proof (put_field_length _ _ _ _ _ E1 ltac:(lia)) as L1.
    pose proof (put_field_comm g1 dcStart dcEnd lo hi (filter decr) x
                  ltac:(lia) ltac:(lia) ltac:(lia)) as C2.
    rewrite C1 in C2. cbn [and_then] in C2. exact C2.
  - reflexivity.
Qed.

End SetterExtras.

(** X6. Setters of different fields commute: applying two of [SetTime],
    [SetFingerprint], [SetCounters] and [SetRandom] in either order gives the
    same GUID (or the same panic). *)
Theorem setters_commute (g : guid.GUID) (t : time.Time) (fp ic dc rd : Z) :
  length g = guid.byteSize ->
  and_then (guid.SetTime g t) (fun g1 => guid.SetFingerprint g1 fp)
  = and_then (guid.SetFingerprint g fp) (fun g1 => guid.SetTime g1 t)
  /\ and_then (guid.SetTime g t) (fun g1 => guid.SetCounters g1 ic dc)
     = and_then (guid.SetCounters g ic dc) (fun g1 => guid.SetTime g1 t)
  /\ and_then (guid.SetTime g t) (fun g1 => guid.SetRandom g1 rd)
     = and_then (guid.SetRandom g rd) (fun g1 => guid.SetTime g1 t)
  /\ and_then (guid.SetFingerprint g fp) (fun g1 => guid.SetCounters g1 ic dc)
     = and_then (guid.SetCounters g ic dc) (fun g1 => guid.SetFingerprint g1 fp)
  /\ and_then (guid.SetFingerprint g fp) (fun g1 => guid.SetRandom g1 rd)
     = and_then (guid.SetRandom g rd) (fun g1 => guid.SetFingerprint g1 fp)
  /\ and_then (guid.SetCounters g ic dc) (fun g1 => guid.SetRandom g1 rd)
     = and_then (guid.SetRandom g rd) (fun g1 => guid.SetCounters g1 ic dc).
Proof.
  intros Hg. unfold guid.SetTime, guid.SetFingerprint, guid.SetRandom.
  repeat split.
  - apply put_field_comm; rewrite ?Hg; cbv; lia.
  - apply SetCounters_comm_before; [exact Hg | cbv; lia].
  - apply put_field_comm; rewrite ?Hg; cbv; lia.
  - apply SetCounters_comm_before; [exact Hg | cbv; lia].
  - apply put_field_comm; rewrite ?Hg; cbv; lia.
  - apply SetCounters_comm_after; [exact Hg | cbv; lia].
Qed.

Lemma setters_commute_witness :
  and_then (guid.SetCounters guid.zero 500 1000)
    (fun g1 => guid.SetRandom g1 315530)
  = and_then (guid.SetRandom guid.zero 315530)
      (fun g1 => guid.SetCounters g1 500 1000).
Proof.
  destruct (setters_commute guid.zero 0 0 500 1000 315530)
    as (_ & _ & _ & _ & _ & H); [reflexivity | exact H].
Defined.

(** X7. [SetTime] keeps the time to the millisecond: reading the time back
    gives the nanosecond count truncated toward zero to a multiple of
    1,000,000, whatever the field held before. *)
Theorem Time_SetTime (g : guid.GUID) (t : time.Time) :
  length g = guid.byteSize -> is_int64 t ->
  exists g', guid.SetTime g t = Some g'
    /\ time.UnixNano (guid.Time g') = (t ÷ 1000000) * 1000000
    /\ Z.abs (t - time.UnixNano (guid.Time g')) < 1000000.
Proof.
  intros Hg Ht. destruct (Milliseconds_fits t Ht) as [Hm1 Hm2].
  destruct (put_field_step g guid.tsStart guid.tsEnd (time.Milliseconds t))
    as (g' & E & _ & G & _); [exact Hg | cbv; lia | cbv; lia | exact Hm1
                              | exact Hm2 |].
  exists g'. split; [exact E|].
  unfold guid.Time, time.UnixNano, time.Unix0. rewrite G.
  unfold time.Milliseconds, is_int64 in *.
  pose proof (Z.quot_rem' t 1000000) as Eq.
  assert (B : Z.abs (Z.rem t 1000000) < Z.abs 1000000)
    by (apply Z.rem_bound_abs; lia).
  change (Z.abs 1000000) with 1000000 in B.
  assert (Hs : 0 <= t -> 0 <= Z.rem t 1000000)
    by (intros; apply Z.rem_nonneg; lia).
  assert (Hs' : t <= 0 -> Z.rem t 1000000 <= 0)
    by (intros; apply Z.rem_nonpos; lia).
  assert (E64 : to_int64 (t ÷ 1000000 * 1000000) = t ÷ 1000000 * 1000000).
  { unfold to_int64. change (2 ^ 64) with (2 * 2 ^ 63).
    rewrite Z.mod_small; lia. }
  rewrite E64. split; lia.
Qed.

Lemma Time_SetTime_witness :
  exists g', guid.SetTime guid.zero 1622222222222999999 = Some g'
    /\ time.UnixNano (guid.Time g') = (1622222222222999999 ÷ 1000000) * 1000000
    /\ Z.abs (1622222222222999999 - time.UnixNano (guid.Time g')) < 1000000.
Proof.
  apply Time_SetTime; [reflexivity | unfold is_int64; lia].
Defined.

(** X8. A setter changes no getter but its own: after [SetTime],
    [SetFingerprint], [SetCounters] or [SetRandom] the prefix bytes and the
    other three getters return what they returned before. *)
Theorem setters_keep_other_getters (g : guid.GUID) :
  length g = guid.byteSize ->
  (forall t, is_int64 t ->
     exists g', guid.SetTime g t = Some g' /\ same_prefix g g'
       /\ same_fingerprint g g' /\ same_counters g g' /\ same_random g g')
  /\ (forall v,
     exists g', guid.SetFingerprint g v = Some g' /\ same_prefix g g'
       /\ same_time g g' /\ same_counters g g' /\ same_random g g')
  /\ (forall incr decr,
     exists g', guid.SetCounters g incr decr = Some g' /\ same_prefix g g'
       /\ same_time g g' /\ same_fingerprint g g' /\ same_random g g')
  /\ (forall v,
     exists g', guid.SetRandom g v = Some g' /\ same_prefix g g'
       /\ same_time g g' /\ same_fingerprint g g' /\ same_counters g g').
Proof.
  intros Hg.
  unfold same_prefix, same_time, same_fingerprint, same_counters, same_random,
    guid.PrefixBytes, guid.Time, guid.Fingerprint, guid.Counters, guid.Random.
  split; [|split; [|split]].
  - intros t Ht. destruct (Milliseconds_fits t Ht) as [Hm1 Hm2].
    destruct (put_field_step g guid.tsStart guid.tsEnd (time.Milliseconds t))
      as (g' & E & _ & _ & F & O);
      [exact Hg | cbv; lia | cbv; lia | exact Hm1 | exact Hm2 |].
    exists g'. split; [exact E|].
    rewrite !F, !O by (cbv; lia). repeat split.
  - intros v.
    destruct (put_filter_step g guid.fpStart v Hg) as (g' & E & _ & _ & F & O);
      [cbv; lia|].
    exists g'. split; [exact E|].
    rewrite !F, !O by (cbv; lia). repeat split.
  - intros incr decr.
    destruct (put_filter_step g guid.icStart incr Hg)
      as (g1 & E1 & L1 & _ & F1 & O1); [cbv; lia|].
    destruct (put_filter_step g1 guid.dcStart decr L1)
      as (g2 & E2 & _ & _ & F2 & O2); [cbv; lia|].
    exists g2. unfold guid.SetCounters.
    change guid.icEnd with (guid.icStart + guid.fieldSize)%nat.
    rewrite E1. split; [exact E2|].
    rewrite !F2, !O2, !F1, !O1 by (cbv; lia). repeat split.
  - intros v.
    destruct (put_filter_step g guid.rdStart v Hg) as (g' & E & _ & _ & F & O);
      [cbv; lia|].
    exists g'. split; [exact E|].
    rewrite !F, !O by (cbv; lia). repeat split.
Qed.

Lemma setters_keep_other_getters_witness :
  exists g',
    guid.SetFingerprint (parsed "xokp8l85n201pq00dw00rs6rgq") 7 = Some g'
    /\ same_prefix (parsed "xokp8l85n201pq00dw00rs6rgq") g'
    /\ same_time (parsed "xokp8l85n201pq00dw00rs6rgq") g'
    /\ same_counters (parsed "xokp8l85n201pq00dw00rs6rgq") g'
    /\ same_random (parsed "xokp8l85n201pq00dw00rs6rgq") g'.
Proof.
  destruct (setters_keep_other_getters (parsed "xokp8l85n201pq00dw00rs6rgq"))
    as (_ & H & _); [reflexivity | apply H].
Defined.

(** X9. [WithPrefixBytes] sets the two prefix bytes and nothing else: the
    four numeric getters are unchanged, and the text changes in its first
    two characters only. *)
Theorem WithPrefixBytes_only_prefix (g : guid.GUID) (b1 b2 : Z) :
  length g = guid.byteSize ->
  let g' := guid.WithPrefixBytes b1 b2 g in
  length g' = guid.byteSize
  /\ guid.PrefixBytes g' = (b1, b2)
  /\ same_time g g' /\ same_fingerprint g g'
  /\ same_counters g g' /\ same_random g g'
  /\ guid.String g' = b1 :: b2 :: skipn 2 (guid.String g).
Proof.
  intros Hg. unfold guid.byteSize in Hg. explode g Hg. cbv zeta.
  repeat split.
Qed.

Lemma WithPrefixBytes_only_prefix_witness :
  guid.String (guid.WithPrefixBytes 102 117 (parsed "xokp8l85n201pq00dw00rs6rgq"))
  = 102 :: 117 :: skipn 2 (guid.String (parsed "xokp8l85n201pq00dw00rs6rgq")).
Proof.
  destruct (WithPrefixBytes_only_prefix (parsed "xokp8l85n201pq00dw00rs6rgq")
              102 117) as (_ & _ & _ & _ & _ & _ & H); [reflexivity | exact H].
Defined.

(** * guid.go: the interchange adapters *)

Section AdapterFacts.

Import guid adapters.

(** The text of a GUID built from the zero value with in-range fields is 26
    characters long and parses back to the GUID. *)
Lemma build_text (b1 b2 : Z) (t : time.Time) (fp ic dc rd : Z) :
  0 <= time.Milliseconds (time.UnixNano t) < 36 ^ 8 ->
  0 <= fp < maxInt -> 0 <= ic < maxInt ->
  0 <= dc < maxInt -> 0 <= rd < maxInt ->
  exists g, build b1 b2 t fp ic dc rd = Some g
    /\ length g = byteSize
    /\ length (String g) = byteSize
    /\ Parse (String g) = Some (g, None).
Proof.
  unfold time.UnixNano. intros Hms Hfp Hic Hdc Hrd.
  assert (Ht : is_int64 t).
  { unfold is_int64, time.Milliseconds in *.
    change (36 ^ 8) with 2821109907456 in Hms.
    change (2 ^ 63) with 9223372036854775808.
    pose proof (Z.quot_rem' t 1000000) as E.
    assert (B : Z.abs (Z.rem t 1000000) < Z.abs 1000000)
      by (apply Z.rem_bound_abs; lia).
    change (Z.abs 1000000) with 1000000 in B. lia. }
  destruct (build_fields b1 b2 t fp ic dc rd Ht)
    as (g & E & L & P0 & P1 & Gts & Gfp & Gic & Gdc & Grd).
  rewrite filter_in_range in Gfp, Gic, Gdc, Grd by assumption.
  assert (Hr : fields_in_range g)
    by (unfold fields_in_range; rewrite Gts, Gfp, Gic, Gdc, Grd; auto).
  exists g. split; [exact E|]. split; [exact L|].
  split; [apply (String_pieces g L Hr)|].
  rewrite (Parse_String_replay g L Hr).
  rewrite P0, P1, Gts, Gfp, Gic, Gdc, Grd.
  rewrite (build_same_millisecond b1 b2 t), E; [reflexivity|].
  unfold time.Milliseconds. apply Z.quot_mul. lia.
Qed.

Lemma pick_seq (s : list Z) :
  forall n, (n <= length s)%nat -> pick s (seq 0 n) = Some (firstn n s).
Proof.
  intros n Hn. rewrite pick_nth
    by (intros p Hp; apply in_seq in Hp; lia).
  f_equal. revert n Hn. induction s as [| a s IH]; intros n Hn.
  - destruct n; [reflexivity | cbn in Hn; lia].
  - destruct n as [| n]; [reflexivity|].
    cbn [seq map firstn nth]. f_equal.
    rewrite <- seq_shift, map_map. cbn [nth].
    apply IH. cbn [length] in Hn. lia.
Qed.

Lemma slice_strip (a c : Z) (s : list Z) :
  slice (a :: s ++ [c]) 1 (length (a :: s ++ [c]) - 1) = s.
Proof.
  unfold slice. cbn [length skipn]. rewrite length_app. cbn [length].
  replace (S (length s + 1) - 1 - 1)%nat with (length s + 0)%nat by lia.
  rewrite firstn_app_2. cbn [firstn]. apply app_nil_r.
Qed.

Lemma assign_parsed_error (r r' : GUID) (wrap : ParseError -> Error)
      (res : option (GUID * option ParseError)) (e : Error) :
  assign_parsed r wrap res = Some (r', Some e) -> r' = r.
Proof.
  unfold assign_parsed. destruct res as [[gg [x|]]|]; intros H;
    [injection H as <- | discriminate H | discriminate H]; reflexivity.
Qed.

Lemma assign_parsed_returns (r : GUID) (wrap : ParseError -> Error)
      (inp : list Z) :
  exists r' e, assign_parsed r wrap (Parse inp) = Some (r', e).
Proof.
  destruct (Parse_outcome inp) as (g & e & -> & _).
  destruct e as [x|]; cbn [assign_parsed]; eauto.
Qed.

Lemma digit_val_high (c : Z) :
  128 <= c < 256 ->
  strconv.digit_val c = None /\ c <> 43 /\ c <> 45.
Proof.
  intros Hc.
  pose (P := fun c => if 128 <=? c
                      then match strconv.digit_val c with
                           | None => true
                           | Some _ => false
                           end
                      else true).
  assert (HP : P c = true)
    by (apply byte_cases; [vm_compute; reflexivity | unfold byte_ok; lia]).
  unfold P in HP. destruct (Z.leb_spec 128 c); [|lia].
  destruct (strconv.digit_val c); [discriminate HP|].
  repeat split; lia.
Qed.

Lemma ParseUint_loop_bad (s : list Z) (c : Z) :
  forall n, In c s -> strconv.digit_val c = None ->
            strconv.ParseUint_loop s 36 n = None.
Proof.
  induction s as [| x s IH]; intros n Hin Hc; [contradiction|].
  cbn [strconv.ParseUint_loop]. destruct Hin as [-> | Hin].
  - rewrite Hc. reflexivity.
  - destruct (strconv.digit_val x); [|reflexivity].
    destruct (36 <=? z); [reflexivity|].
    destruct (_ <=? n); [reflexivity|].
    destruct (_ <? _); [reflexivity|]. now apply IH.
Qed.

(** [ParseInt] rejects every string that holds a byte of 128 or more. *)
Lemma ParseInt_high_byte (s : list Z) (c : Z) :
  In c s -> 128 <= c < 256 -> strconv.ParseInt s 36 = None.
Proof.
  intros Hin Hc. destruct (digit_val_high c Hc) as (Hd & H43 & H45).
  assert (Hu : forall l, In c l -> strconv.ParseUint l 36 = None).
  { intros l Hl. unfold strconv.ParseUint.
    destruct l; [contradiction|]. now apply ParseUint_loop_bad with c. }
  destruct s as [| x s]; [contradiction|]. unfold strconv.ParseInt.
  destruct ((x =? 43) || (x =? 45)) eqn:Esign.
  - rewrite Hu; [reflexivity|]. destruct Hin as [-> | Hin]; [|exact Hin].
    apply orb_prop in Esign. destruct Esign as [E | E];
      apply Z.eqb_eq in E; contradiction.
  - rewrite (Hu (x :: s) Hin). reflexivity.
Qed.

End AdapterFacts.

(** X10. [MarshalJSON] never panics and always returns 28 bytes: a quote,
    the first 26 characters of the text, a quote. A text longer than 26
    characters is cut. *)
Theorem MarshalJSON_28_bytes (g : guid.GUID) :
  length g = guid.byteSize ->
  exists js, adapters.MarshalJSON g = Some (js, None)
    /\ js = 34 :: firstn 26 (guid.String g) ++ [34]
    /\ length js = 28%nat.
Proof.
  intros Hg. unfold adapters.MarshalJSON.
  pose proof (String_min_length g Hg) as Hs.
  rewrite pick_seq by exact Hs.
  eexists. split; [reflexivity|]. split; [reflexivity|].
  cbn [length]. rewrite length_app, length_firstn. cbn [length].
  unfold guid.byteSize in *. lia.
Qed.

Lemma MarshalJSON_28_bytes_witness :
  exists js,
    adapters.MarshalJSON
      [0; 0; 128; 192; 249; 222; 207; 174; 1; 0; 0; 0; 0; 0; 0; 0; 0; 0; 0; 0;
       0; 0; 0; 0; 0; 0] = Some (js, None)
    /\ js = 34 :: firstn 26
              (guid.String
                 [0; 0; 128; 192; 249; 222; 207; 174; 1; 0; 0; 0; 0; 0; 0; 0;
                  0; 0; 0; 0; 0; 0; 0; 0; 0; 0]) ++ [34]
    /\ length js = 28%nat.
Proof. apply MarshalJSON_28_bytes. reflexivity. Defined.



(** X12. JSON round trip: for a GUID built from the zero value with a
    millisecond count in [0, 36^8) and numeric values in [0, 1679616),
    [UnmarshalJSON] of what [MarshalJSON] returned stores that GUID in the
    receiver and returns no error. *)
Theorem UnmarshalJSON_MarshalJSON (r : guid.GUID) (b1 b2 : Z)
        (t : time.Time) (fp ic dc rd : Z) :
  0 <= time.Milliseconds (time.UnixNano t) < 36 ^ 8 ->
  0 <= fp < 1679616 -> 0 <= ic < 1679616 ->
  0 <= dc < 1679616 -> 0 <= rd < 1679616 ->
  exists g js,
    build b1 b2 t fp ic dc rd = Some g
    /\ adapters.MarshalJSON g = Some (js, None)
    /\ adapters.UnmarshalJSON r js = Some (g, None).
Proof.
  intros Hms Hfp Hic Hdc Hrd.
  destruct (build_text b1 b2 t fp ic dc rd Hms Hfp Hic Hdc Hrd)
    as (g & E & L & LS & HP).
  exists g, (34 :: guid.String g ++ [34]). split; [exact E|]. split.
  - unfold adapters.MarshalJSON. rewrite pick_seq by lia.
    rewrite <- LS, firstn_all. reflexivity.
  - unfold adapters.UnmarshalJSON.
    destruct (Nat.leb_spec (length (34 :: guid.String g ++ [34])) 1)
      as [H | _].
    + cbn [length] in H. rewrite length_app in H. cbn [length] in H. lia.
    + rewrite slice_strip, HP. reflexivity.
Qed.

Lemma UnmarshalJSON_MarshalJSON_witness :
  exists g js,
    build 120 111 1622222222222000000 2222 500 1000 315530 = Some g
    /\ adapters.MarshalJSON g = Some (js, None)
    /\ adapters.UnmarshalJSON guid.zero js = Some (g, None).
Proof.
  apply UnmarshalJSON_MarshalJSON.
  - vm_compute. split; [intros H; discriminate H | reflexivity].
  - lia.
  - lia.
  - lia.
  - lia.
Defined.

(** X13. Text round trips: for a GUID built from the zero value with a
    millisecond count in [0, 36^8) and numeric values in [0, 1679616),
    [UnmarshalText] of [MarshalText], and [Scan] of [Value] given as a
    string or as bytes, store that GUID in the receiver and return no
    error. *)
Theorem text_adapters_roundtrip (r : guid.GUID) (b1 b2 : Z)
        (t : time.Time) (fp ic dc rd : Z) :
  0 <= time.Milliseconds (time.UnixNano t) < 36 ^ 8 ->
  0 <= fp < 1679616 -> 0 <= ic < 1679616 ->
  0 <= dc < 1679616 -> 0 <= rd < 1679616 ->
  exists g,
    build b1 b2 t fp ic dc rd = Some g
    /\ adapters.UnmarshalText r (fst (adapters.MarshalText g)) = Some (g, None)
    /\ adapters.Scan r (adapters.ScanString (fst (adapters.Value g)))
       = Some (g, None)
    /\ adapters.Scan r (adapters.ScanBytes (fst (adapters.Value g)))
       = Some (g, None).
Proof.
  intros Hms Hfp Hic Hdc Hrd.
  destruct (build_text b1 b2 t fp ic dc rd Hms Hfp Hic Hdc Hrd)
    as (g & E & L & LS & HP).
  exists g. split; [exact E|].
  unfold adapters.UnmarshalText, adapters.UnmarshalBinary, adapters.Scan,
    adapters.ParseString, adapters.MarshalText, adapters.Value.
  cbn [fst]. rewrite HP. repeat split.
Qed.

Lemma text_adapters_roundtrip_witness :
  exists g,
    build 120 111 1622222222222000000 2222 500 1000 315530 = Some g
    /\ adapters.UnmarshalText guid.zero (fst (adapters.MarshalText g))
       = Some (g, None)
    /\ adapters.Scan guid.zero (adapters.ScanString (fst (adapters.Value g)))
       = Some (g, None)
    /\ adapters.Scan guid.zero (adapters.ScanBytes (fst (adapters.Value g)))
       = Some (g, None).
Proof.
  apply text_adapters_roundtrip.
  - vm_compute. split; [intros H; discriminate H | reflexivity].
  - lia.
  - lia.
  - lia.
  - lia.
Defined.

(** X14. The binary adapters are not inverse to each other: [MarshalBinary]
    and [GobEncode] return the 26 raw bytes, [UnmarshalBinary] and
    [GobDecode] parse their input as text. For a GUID with a timestamp byte
    of 128 or more (a continuation byte of the varint) decoding what was
    encoded fails with the timestamp error and leaves the receiver as it
    was. *)
Theorem binary_adapters_mismatch (r g : guid.GUID) (k : nat) :
  guid.wf g -> (2 <= k < 10)%nat -> 128 <= nth k g 0 ->
  adapters.UnmarshalBinary r (fst (adapters.MarshalBinary g))
  = Some (r, Some (adapters.ParseFailed guid.InvalidTimestamp))
  /\ adapters.GobDecode r (fst (adapters.GobEncode g))
     = Some (r, Some (adapters.ParseFailed guid.InvalidTimestamp)).
Proof.
  intros [Hlen Hok] Hk Hhigh.
  assert (HP : guid.Parse g = Some (guid.zero, Some guid.InvalidTimestamp)).
  { unfold guid.Parse. rewrite Hlen, Nat.eqb_refl. cbn [negb].
    rewrite (ParseInt_high_byte _ (nth k g 0)); [reflexivity | |].
    - change guid.tsStart with 2%nat. change guid.tsEnd with 10%nat.
      pose proof (nth_slice g 2 10 (k - 2) 0 ltac:(lia)) as En.
      replace (2 + (k - 2))%nat with k in En by lia.
      rewrite <- En. apply nth_In.
      rewrite length_slice by (rewrite Hlen; unfold guid.byteSize; lia).
      lia.
    - pose proof (byte_ok_nth g k Hok) as Hb. unfold byte_ok in Hb. lia. }
  unfold adapters.GobDecode, adapters.GobEncode, adapters.UnmarshalBinary,
    adapters.MarshalBinary. cbn [fst]. rewrite HP. split; reflexivity.
Qed.

Lemma binary_adapters_mismatch_witness :
  adapters.UnmarshalBinary guid.zero
    (fst (adapters.MarshalBinary (parsed "xokp8l85n201pq00dw00rs6rgq")))
  = Some (guid.zero, Some (adapters.ParseFailed guid.InvalidTimestamp)).
Proof.
  destruct (binary_adapters_mismatch guid.zero
              (parsed "xokp8l85n201pq00dw00rs6rgq") 2) as [H _].
  - apply wfb_sound. vm_compute. reflexivity.
  - lia.
  - vm_compute. intros H. discriminate H.
  - exact H.
Defined.

(** X15. The decoding adapters never panic, and when they return an error
    the receiver keeps the value it had: [UnmarshalJSON], [Scan],
    [UnmarshalBinary], [UnmarshalText] and [GobDecode]. *)
Theorem adapters_keep_receiver_on_error (r : guid.GUID) :
  (forall b, exists r' e,
     adapters.UnmarshalJSON r b = Some (r', e) /\ (e <> None -> r' = r))
  /\ (forall v, exists r' e,
     adapters.Scan r v = Some (r', e) /\ (e <> None -> r' = r))
  /\ (forall data, exists r' e,
     adapters.UnmarshalBinary r data = Some (r', e) /\ (e <> None -> r' = r))
  /\ (forall text, exists r' e,
     adapters.UnmarshalText r text = Some (r', e) /\ (e <> None -> r' = r))
  /\ (forall data, exists r' e,
     adapters.GobDecode r data = Some (r', e) /\ (e <> None -> r' = r)).
Proof.
  assert (Hap : forall wrap inp, exists r' e,
            adapters.assign_parsed r wrap (guid.Parse inp) = Some (r', e)
            /\ (e <> None -> r' = r)).
  { intros wrap inp.
    destruct (assign_parsed_returns r wrap inp) as (r' & e & E).
    exists r', e. split; [exact E|]. intros He.
    destruct e as [x|]; [|contradiction].
    exact (assign_parsed_error _ _ _ _ _ E). }
  assert (Hsame : forall x : adapters.Error, exists r' e,
            Some (r, Some x) = Some (r', e) /\ (e <> None -> r' = r)).
  { intros x. exists r, (Some x). split; reflexivity. }
  split; [|split; [|split; [|split]]].
  - intros b. unfold adapters.UnmarshalJSON.
    destruct (Nat.leb (length b) 1); [apply Hsame | apply Hap].
  - intros [| vv | vv |]; unfold adapters.Scan, adapters.ParseString.
    + exists r, None. split; [reflexivity | intros H; contradiction].
    + apply Hap.
    + apply Hap.
    + apply Hsame.
  - intros data. apply Hap.
  - intros text. apply Hap.
  - intros data. apply Hap.
Qed.

Lemma adapters_keep_receiver_on_error_witness :
  exists r' e,
    adapters.Scan (parsed "xokp8l85n201pq00dw00rs6rgq")
      (adapters.ScanString (bytes_of "nope")) = Some (r', e)
    /\ (e <> None -> r' = parsed "xokp8l85n201pq00dw00rs6rgq").
Proof.
  destruct (adapters_keep_receiver_on_error
              (parsed "xokp8l85n201pq00dw00rs6rgq")) as (_ & H & _).
  apply H.
Defined.

(** X16. [NewRandom] applies its options from left to right to what the
    generator returned: with [WithPrefixBytes b1 b2] as the last option the
    GUID has the prefix [(b1, b2)]; when the generator fails, it returns
    the zero GUID and the error, and [New] panics. *)
Theorem NewRandom_options (E : Type) (g : guid.GUID) (err : E)
        (opts : list adapters.Option) (b1 b2 : Z) :
  (2 <= length (fst (adapters.NewRandom (g, @None E) opts)))%nat ->
  guid.PrefixBytes
    (fst (adapters.NewRandom (g, @None E)
            (opts ++ [guid.WithPrefixBytes b1 b2]))) = (b1, b2)
  /\ adapters.NewRandom (g, Some err) opts = (guid.zero, Some err)
  /\ adapters.New (g, Some err) opts = None
  /\ adapters.New (g, @None E) opts
     = Some (fold_left (fun out opt => opt out) opts g).
Proof.
  intros Hlen. unfold adapters.New, adapters.NewRandom in *.
  cbn [fst] in *. rewrite fold_left_app. cbn [fold_left].
  split; [|repeat split].
  destruct (fold_left (fun out opt => opt out) opts g) as [| x [| y l]];
    cbn [length] in Hlen; try lia.
  reflexivity.
Qed.

Lemma NewRandom_options_witness :
  guid.PrefixBytes
    (fst (adapters.NewRandom (parsed "xokp8l85n201pq00dw00rs6rgq", @None unit)
            ([guid.WithPrefixBytes 52 50] ++ [guid.WithPrefixBytes 102 117])))
  = (102, 117).
Proof.
  destruct (NewRandom_options unit (parsed "xokp8l85n201pq00dw00rs6rgq") tt
              [guid.WithPrefixBytes 52 50] 102 117) as [H _].
  - vm_compute. lia.
  - exact H.
Defined.

(** * signer.go and [Slug]: further properties *)

Section SignerExtras.

Import guid.

Lemma check_loop_spec (n : nat) :
  forall i j g s,
    check_loop n i j g s = true
    <-> forall m, (m < n)%nat ->
          Z.land (nth (i + m - 2) s 0) (nth (i + m) g 0) = nth (i + m) g 0
          /\ Z.land (nth (j - m) s 0) (nth (j - m - 6) g 0)
             = nth (j - m - 6) g 0.
Proof.
  induction n as [| n IH]; intros i j g s.
  - split; [intros _ m Hm; lia | reflexivity].
  - cbn [check_loop]. split.
    + intros H m Hm.
      destruct (Z.eqb_spec (Z.land (nth (i - 2) s 0) (nth i g 0)) (nth i g 0))
        as [E1 | _]; [|discriminate H].
      destruct (Z.eqb_spec (Z.land (nth j s 0) (nth (j - 6) g 0))
                  (nth (j - 6) g 0)) as [E2 | _]; [|discriminate H].
      cbn [negb] in H. destruct m as [| m].
      * rewrite Nat.add_0_r, Nat.sub_0_r. split; assumption.
      * destruct (proj1 (IH (S i) (j - 1)%nat g s) H m ltac:(lia)) as [A B].
        replace (i + S m)%nat with (S i + m)%nat by lia.
        replace (j - S m)%nat with (j - 1 - m)%nat by lia.
        split; assumption.
    + intros H.
      destruct (H 0%nat ltac:(lia)) as [E1 E2].
      rewrite Nat.add_0_r in E1. rewrite Nat.sub_0_r in E2.
      rewrite E1, E2, !Z.eqb_refl. cbn [negb].
      apply IH. intros m Hm.
      destruct (H (S m) ltac:(lia)) as [A B].
      replace (i + S m)%nat with (S i + m)%nat in A by lia.
      replace (j - S m)%nat with (j - 1 - m)%nat in B by lia.
      split; assumption.
Qed.

(** [DidSign] as one conjunction. *)
Lemma DidSign_unfold (g : GUID) (inp : list Z) :
  DidSign g inp
  = match hex.DecodeString inp with
    | None => false
    | Some sum =>
        Nat.eqb (length sum) 32
        && (Z.land (nth 12 sum 0) (nth 0 g 0) =? nth 0 g 0)
        && (Z.land (nth 13 sum 0) (nth 1 g 0) =? nth 1 g 0)
        && check_loop 12 2 31 g sum
    end.
Proof.
  unfold DidSign. destruct (hex.DecodeString inp) as [sum|]; [|reflexivity].
  change sha256.Size with 32%nat. change (32 - 1)%nat with 31%nat.
  generalize (check_loop 12 2 31 g sum). intros c.
  destruct (Nat.eqb (length sum) 32); [|reflexivity].
  destruct (Z.land (nth 12 sum 0) (nth 0 g 0) =? nth 0 g 0); [|reflexivity].
  destruct (Z.land (nth 13 sum 0) (nth 1 g 0) =? nth 1 g 0); reflexivity.
Qed.

(** [DidSign] holds exactly when the input decodes to 32 bytes each of
    which, at the 26 checked places, has every bit of its GUID byte. *)
Lemma DidSign_iff (g : GUID) (inp : list Z) :
  DidSign g inp = true
  <-> exists sum,
        hex.DecodeString inp = Some sum
        /\ length sum = 32%nat
        /\ Z.land (nth 12 sum 0) (nth 0 g 0) = nth 0 g 0
        /\ Z.land (nth 13 sum 0) (nth 1 g 0) = nth 1 g 0
        /\ forall m, (m < 12)%nat ->
             Z.land (nth m sum 0) (nth (m + 2) g 0) = nth (m + 2) g 0
             /\ Z.land (nth (31 - m) sum 0) (nth (25 - m) g 0)
                = nth (25 - m) g 0.
Proof.
  rewrite DidSign_unfold.
  assert (Hloop : forall sum,
            check_loop 12 2 31 g sum = true
            <-> forall m, (m < 12)%nat ->
                  Z.land (nth m sum 0) (nth (m + 2) g 0) = nth (m + 2) g 0
                  /\ Z.land (nth (31 - m) sum 0) (nth (25 - m) g 0)
                     = nth (25 - m) g 0).
  { intros sum. rewrite check_loop_spec. split; intros H m Hm;
      destruct (H m Hm) as [A B].
    - replace (2 + m - 2)%nat with m in A by lia.
      replace (2 + m)%nat with (m + 2)%nat in A by lia.
      replace (31 - m - 6)%nat with (25 - m)%nat in B by lia.
      split; assumption.
    - replace (2 + m - 2)%nat with m by lia.
      replace (2 + m)%nat with (m + 2)%nat by lia.
      replace (31 - m - 6)%nat with (25 - m)%nat by lia.
      split; assumption. }
  destruct (hex.DecodeString inp) as [sum|].
  - rewrite !andb_true_iff, Nat.eqb_eq, !Z.eqb_eq, Hloop. split.
    + intros (((L & E1) & E2) & H). exists sum. auto.
    + intros (sum' & E & L & E1 & E2 & H). injection E as <-. auto.
  - split; [discriminate|]. intros (sum' & E & _). discriminate E.
Qed.

Lemma land_lor_subset (s a b : Z) :
  Z.land a b = b -> Z.land (Z.lor s a) b = b.
Proof.
  intros H. apply Z.bits_inj'. intros n Hn.
  apply (f_equal (fun z => Z.testbit z n)) in H.
  rewrite Z.land_spec in H. rewrite Z.land_spec, Z.lor_spec.
  destruct (Z.testbit s n), (Z.testbit a n), (Z.testbit b n);
    cbn in *; congruence.
Qed.

Lemma Encode_lower_hex (bs : list Z) :
  bytes_ok bs ->
  length (hex.Encode bs) = (2 * length bs)%nat
  /\ Forall (fun c => is_lower_hex c = true) (hex.Encode bs).
Proof.
  induction 1 as [| v bs Hv Hbs [IH1 IH2]]; [split; [reflexivity | constructor]|].
  cbn [hex.Encode length]. split; [lia|].
  pose (P := fun v => is_lower_hex (hex.hextable (Z.shiftr v 4))
                      && is_lower_hex (hex.hextable (Z.land v 15))).
  assert (HP : P v = true)
    by (apply byte_cases; [vm_compute; reflexivity | exact Hv]).
  unfold P in HP. apply andb_prop in HP. destruct HP as [H1 H2].
  constructor; [exact H1|]. constructor; [exact H2 | exact IH2].
Qed.

(** The slug of an in-range GUID, field by field. *)
Lemma Slug_parts (g : GUID) :
  length g = byteSize -> fields_in_range g ->
  Slug g = Some (skipn 4 (field_text g tsStart tsEnd (fieldSize * 2))
                 ++ skipn 2 (field_text g icStart icEnd fieldSize)
                 ++ skipn 2 (field_text g dcStart dcEnd fieldSize)
                 ++ field_text g rdStart rdEnd fieldSize).
Proof.
  intros Hg (Hts & Hfp & Hic & Hdc & Hrd). unfold Slug.
  rewrite String_fields.
  assert (Hp : length (slice g 0 2) = 2%nat)
    by (apply length_slice; rewrite Hg; cbv; lia).
  destruct (field_text_in_range g tsStart tsEnd (fieldSize * 2))
    as [Lts _]; [exact Hts | cbv; lia |].
  destruct (field_text_in_range g fpStart fpEnd fieldSize)
    as [Lfp _]; [exact Hfp | cbv; lia |].
  destruct (field_text_in_range g icStart icEnd fieldSize)
    as [Lic _]; [exact Hic | cbv; lia |].
  destruct (field_text_in_range g dcStart dcEnd fieldSize)
    as [Ldc _]; [exact Hdc | cbv; lia |].
  destruct (field_text_in_range g rdStart rdEnd fieldSize)
    as [Lrd _]; [exact Hrd | cbv; lia |].
  generalize dependent (field_text g rdStart rdEnd fieldSize).
  generalize dependent (field_text g dcStart dcEnd fieldSize).
  generalize dependent (field_text g icStart icEnd fieldSize).
  generalize dependent (field_text g fpStart fpEnd fieldSize).
  generalize dependent (field_text g tsStart tsEnd (fieldSize * 2)).
  generalize dependent (slice g 0 2).
  intros p Hp ts Lts fp Lfp ic Lic dc Ldc rd Lrd.
  change (fieldSize * 2)%nat with 8%nat in Lts.
  unfold fieldSize in Lfp, Lic, Ldc, Lrd.
  explode p Hp. explode ts Lts. explode fp Lfp. explode ic Lic.
  explode dc Ldc. explode rd Lrd.
  reflexivity.
Qed.

End SignerExtras.

(** X17. [DidSign] returns true exactly when its input decodes as hex to 32
    bytes and, at each of the 26 places [Sign] folds, the digest byte has
    every bit of the GUID byte: digest 12 and 13 against GUID 0 and 1,
    digest 0-11 against GUID 2-13, digest 20-31 against GUID 14-25. Digest
    bytes 14-19 play no part. *)
Theorem DidSign_exactly (g : guid.GUID) (inp : list Z) :
  guid.DidSign g inp = true
  <-> exists sum,
        hex.DecodeString inp = Some sum
        /\ length sum = 32%nat
        /\ Z.land (nth 12 sum 0) (nth 0 g 0) = nth 0 g 0
        /\ Z.land (nth 13 sum 0) (nth 1 g 0) = nth 1 g 0
        /\ forall m, (m < 12)%nat ->
             Z.land (nth m sum 0) (nth (m + 2) g 0) = nth (m + 2) g 0
             /\ Z.land (nth (31 - m) sum 0) (nth (25 - m) g 0)
                = nth (25 - m) g 0.
Proof. apply DidSign_iff. Qed.

Lemma DidSign_exactly_witness :
  guid.DidSign guid.zero
    (bytes_of "2d711642b726b04401627ca9fbac32f5c8530fb1903cc4db02258717921a4881")
  = true.
Proof.
  apply DidSign_exactly. exists (sha256.Sum256 (bytes_of "x")).
  split; [vm_compute; reflexivity|]. split; [reflexivity|].
  split; [apply Z.land_0_r|]. split; [apply Z.land_0_r|].
  intros m Hm. unfold guid.zero. rewrite !nth_repeat.
  split; apply Z.land_0_r.
Defined.

(** X18. A signature made with a GUID [g] is also accepted for every GUID
    [g'] whose bytes have no bit outside those of [g]: [DidSign] cannot
    tell such a GUID from the signer. *)
Theorem DidSign_accepts_submasks (g g' : guid.GUID) (d : list Z) :
  guid.wf g -> d <> [] ->
  (forall k, Z.land (nth k g 0) (nth k g' 0) = nth k g' 0) ->
  exists sig, guid.Sign g d = Some sig /\ guid.DidSign g' sig = true.
Proof.
  intros [Hlen Hok] Hd Hsub.
  exists (hex.Encode (guid.fold g (sha256.Sum256 d))).
  split; [destruct d; [contradiction | reflexivity]|].
  pose proof (Sum256_length d) as Hh.
  pose proof (Sum256_bytes_ok d) as Hb.
  generalize dependent (sha256.Sum256 d). intros h Hh Hb.
  apply DidSign_iff. exists (guid.fold g h).
  split; [apply DecodeString_Encode, fold_bytes_ok; assumption|].
  clear Hok Hb. unfold guid.byteSize in Hlen. unfold sha256.Size in Hh.
  explode g Hlen. explode h Hh.
  set (s := guid.fold _ _). cbv - [Z.lor] in s. subst s.
  split; [reflexivity|].
  assert (Hcell : forall s a k,
            a = nth k [b; b0; b1; b2; b3; b4; b5; b6; b7; b8; b9; b10; b11;
                       b12; b13; b14; b15; b16; b17; b18; b19; b20; b21; b22;
                       b23; b24] 0 ->
            Z.land (Z.lor s a) (nth k g' 0) = nth k g' 0).
  { intros s a k ->. apply land_lor_subset, Hsub. }
  split; [apply Hcell; reflexivity|].
  split; [apply Hcell; reflexivity|].
  intros m Hm.
  do 12 (destruct m as [| m];
         [split; cbn [nth Nat.add Nat.sub]; apply Hcell; reflexivity|]).
  lia.
Qed.

Lemma DidSign_accepts_submasks_witness :
  exists sig,
    guid.Sign (parsed "tjl77zbrfh43jk00qs4un0qr57") (bytes_of "x") = Some sig
    /\ guid.DidSign (store guid.zero 0 116) sig = true.
Proof.
  apply DidSign_accepts_submasks.
  - apply wfb_sound. vm_compute. reflexivity.
  - discriminate.
  - intros k. do 26 (destruct k as [| k]; [reflexivity|]).
    cbn [nth]. destruct k; apply Z.land_0_r.
Defined.

(** X19. A signature is 64 characters, each a lower-case hexadecimal
    digit. *)
Theorem Sign_format (g : guid.GUID) (d : list Z) :
  guid.wf g -> d <> [] ->
  exists sig, guid.Sign g d = Some sig
    /\ length sig = 64%nat
    /\ Forall (fun c => is_lower_hex c = true) sig.
Proof.
  intros [Hlen Hok] Hd.
  exists (hex.Encode (guid.fold g (sha256.Sum256 d))).
  split; [destruct d; [contradiction | reflexivity]|].
  destruct (Encode_lower_hex (guid.fold g (sha256.Sum256 d))) as [L F].
  - apply fold_bytes_ok; [exact Hok | apply Sum256_bytes_ok].
  - split; [|exact F]. rewrite L.
    destruct (check_after_fold g (sha256.Sum256 d) Hlen (Sum256_length d))
      as (-> & _). reflexivity.
Qed.

Lemma Sign_format_witness :
  exists sig,
    guid.Sign (parsed "tjl77zbrfh43jk00qs4un0qr57") (bytes_of "x") = Some sig
    /\ length sig = 64%nat
    /\ Forall (fun c => is_lower_hex c = true) sig.
Proof.
  apply Sign_format.
  - apply wfb_sound. vm_compute. reflexivity.
  - discriminate.
Defined.

(** X20. For a GUID whose decoded fields are in range, the slug is the last
    4 characters of the timestamp text, the last 2 of each counter text and
    the 4 of the random text; the fingerprint has no part in it, so
    [SetFingerprint] does not change the slug. *)
Theorem Slug_without_fingerprint (g : guid.GUID) (v : Z) :
  length g = guid.byteSize -> fields_in_range g ->
  guid.Slug g
  = Some (skipn 4 (field_text g guid.tsStart guid.tsEnd 8)
          ++ skipn 2 (field_text g guid.icStart guid.icEnd 4)
          ++ skipn 2 (field_text g guid.dcStart guid.dcEnd 4)
          ++ field_text g guid.rdStart guid.rdEnd 4)
  /\ exists g', guid.SetFingerprint g v = Some g'
       /\ guid.Slug g' = guid.Slug g.
Proof.
  intros Hg Hr. split; [exact (Slug_parts g Hg Hr)|].
  destruct (put_filter_step g guid.fpStart v Hg) as (g' & E & L & G & _ & O);
    [cbv; lia|].
  exists g'. split; [exact E|].
  assert (Hr' : fields_in_range g').
  { destruct Hr as (Hts & Hfp & Hic & Hdc & Hrd). unfold fields_in_range.
    change guid.fpEnd with (guid.fpStart + guid.fieldSize)%nat.
    rewrite G, !O by (cbv; lia).
    repeat split; try apply filter_range; lia. }
  rewrite (Slug_parts g' L Hr'), (Slug_parts g Hg Hr).
  unfold field_text. rewrite !O by (cbv; lia). reflexivity.
Qed.

Lemma Slug_without_fingerprint_witness :
  exists g',
    guid.SetFingerprint (parsed "nwlen32f2p2s1g0001r1dsx5ls") 99 = Some g'
    /\ guid.Slug g' = guid.Slug (parsed "nwlen32f2p2s1g0001r1dsx5ls").
Proof.
  destruct (Slug_without_fingerprint (parsed "nwlen32f2p2s1g0001r1dsx5ls") 99)
    as [_ H].
  - reflexivity.
  - vm_compute. repeat split; intros H; discriminate H.
  - exact H.
Defined.

(** * guid.go: the text of a parsed GUID *)

Section NormalForm.

Import guid strconv.

Lemma to_lower_alnum (c : Z) :
  is_alnum c = true ->
  is_digit36 (to_lower c) /\ digit_val (to_lower c) = digit_val c.
Proof.
  intros H.
  assert (Hb : byte_ok c).
  { destruct (is_alnum_digit_val c H) as (d & Ed & _).
    unfold is_alnum in H. unfold byte_ok.
    apply orb_prop in H. destruct H as [H | H];
      [apply orb_prop in H; destruct H as [H | H]|];
      apply andb_prop in H; destruct H as [H1 H2];
      apply Z.leb_le in H1, H2; lia. }
  pose (P := fun c =>
    if is_alnum c
    then match digit_val (to_lower c), digit_val c with
         | Some a, Some b =>
             (a =? b) && (0 <=? a) && (a <? 36) && (to_lower c =? digit a)
         | _, _ => false
         end
    else true).
  assert (HP : P c = true)
    by (apply byte_cases; [vm_compute; reflexivity | exact Hb]).
  unfold P in HP. rewrite H in HP.
  destruct (digit_val (to_lower c)) as [a|]; [|discriminate HP].
  destruct (digit_val c) as [b|]; [|discriminate HP].
  repeat (apply andb_prop in HP; destruct HP as [HP ?]).
  apply Z.eqb_eq in HP.
  repeat match goal with
         | X : (_ =? _) = true |- _ => apply Z.eqb_eq in X
         | X : (_ <=? _) = true |- _ => apply Z.leb_le in X
         | X : (_ <? _) = true |- _ => apply Z.ltb_lt in X
         end.
  split; [exists a; split; [lia | assumption] | congruence].
Qed.

Lemma ParseUint_loop_to_lower (s : list Z) :
  forall n, Forall (fun c => is_alnum c = true) s ->
            ParseUint_loop (map to_lower s) 36 n = ParseUint_loop s 36 n.
Proof.
  induction s as [| c s IH]; intros n Hs; [reflexivity|].
  inversion Hs as [| ? ? Hc Hs']; subst.
  cbn [map ParseUint_loop].
  destruct (to_lower_alnum c Hc) as [_ ->].
  destruct (digit_val c); [|reflexivity].
  destruct (36 <=? z); [reflexivity|].
  destruct (_ <=? n); [reflexivity|].
  destruct (_ <? _); [reflexivity | now apply IH].
Qed.

Lemma formatBits_digits (fuel : nat) :
  forall u a, 0 <= u -> Forall is_digit36 a ->
              Forall is_digit36 (formatBits_loop fuel 36 u a).
Proof.
  induction fuel as [| fuel IH]; intros u a Hu Ha; [exact Ha|].
  cbn [formatBits_loop].
  pose proof (Z.div_mod u 36 ltac:(lia)) as Hdm.
  pose proof (Z.mod_pos_bound u 36 ltac:(lia)) as Hm.
  destruct (Z.leb_spec 36 u) as [Hbig | Hsmall].
  - apply IH; [apply Z.div_pos; lia|].
    constructor; [|exact Ha]. eexists. split; [|reflexivity]. lia.
  - constructor; [|exact Ha]. exists u. split; [lia | reflexivity].
Qed.

(** Two strings of base-36 digits of the same length with the same value
    are the same string. *)
Lemma ParseUint_loop_inj (s1 : list Z) :
  forall s2 n v,
    length s1 = length s2 -> Forall is_digit36 s1 -> Forall is_digit36 s2 ->
    0 <= n ->
    ParseUint_loop s1 36 n = Some v -> ParseUint_loop s2 36 n = Some v ->
    s1 = s2.
Proof.
  induction s1 as [| c1 s1 IH]; intros [| c2 s2] n v Hlen F1 F2 Hn P1 P2;
    try discriminate Hlen; [reflexivity|].
  inversion F1 as [| ? ? (d1 & Hd1 & ->) F1']; subst.
  inversion F2 as [| ? ? (d2 & Hd2 & ->) F2']; subst.
  cbn [ParseUint_loop] in P1, P2.
  destruct (digit_val_digit d1 Hd1) as [E1 _].
  destruct (digit_val_digit d2 Hd2) as [E2 _].
  rewrite E1 in P1. rewrite E2 in P2.
  destruct (36 <=? d1); [discriminate P1|].
  destruct (36 <=? d2); [discriminate P2|].
  destruct (_ <=? n); [discriminate P1|].
  destruct (_ <? n * 36 + d1); [discriminate P1|].
  destruct (_ <? n * 36 + d2); [discriminate P2|].
  pose proof (ParseUint_loop_bound s1 (n * 36 + d1) v ltac:(lia) P1) as B1.
  pose proof (ParseUint_loop_bound s2 (n * 36 + d2) v ltac:(lia) P2) as B2.
  injection Hlen as Hlen. rewrite <- Hlen in B2.
  assert (0 < 36 ^ Z.of_nat (length s1)) by (apply Z.pow_pos_nonneg; lia).
  assert (d1 = d2) by nia. subst d2.
  f_equal. apply (IH s2 (n * 36 + d1) v); auto. lia.
Qed.

(** Formatting what was parsed from letters and digits gives the same
    string back in lower case. *)
Lemma leftPad_FormatInt_ParseInt (s : list Z) :
  Forall (fun c => is_alnum c = true) s -> (1 <= length s <= 12)%nat ->
  exists v, ParseInt s 36 = Some v
    /\ 0 <= v < 36 ^ Z.of_nat (length s)
    /\ leftPad (FormatInt v 36) (length s) = map to_lower s.
Proof.
  intros Hs Hlen.
  assert (Hp : 36 ^ Z.of_nat (length s) < 2 ^ 63) by (apply pow36_bound; lia).
  destruct (ParseUint_loop_alnum s 0 Hs) as [v E];
    [lia | change (2 ^ 64) with (2 * 2 ^ 63); lia|].
  pose proof (ParseUint_loop_bound s 0 v ltac:(lia) E) as Hv.
  assert (Hv64 : 0 <= v < 2 ^ 64)
    by (change (2 ^ 64) with (2 * 2 ^ 63); lia).
  exists v. split; [|split; [lia|]].
  - destruct s as [| c s]; [cbn in Hlen; lia|].
    inversion Hs as [| ? ? Hc _]; subst.
    destruct (is_alnum_digit_val c Hc) as (_ & _ & _ & H43 & H45).
    unfold ParseInt.
    destruct (Z.eqb_spec c 45); [contradiction|].
    destruct (Z.eqb_spec c 43); [contradiction|].
    cbn [orb negb andb]. unfold ParseUint. rewrite E.
    destruct (Z.leb_spec (2 ^ 63) v); [lia | reflexivity].
  - rewrite FormatInt_nonneg by exact Hv64.
    pose proof (formatBits_length 65 v [] (length s) ltac:(lia) ltac:(lia))
      as HL.
    cbn [length] in HL.
    apply (ParseUint_loop_inj _ _ 0 v).
    + rewrite length_leftPad, length_map by lia. reflexivity.
    + unfold leftPad. apply Forall_app. split.
      * apply Forall_forall. intros c Hc. apply repeat_spec in Hc. subst c.
        exists 0. split; [lia | reflexivity].
      * apply formatBits_digits; [lia | constructor].
    + apply Forall_forall. intros c Hc. apply in_map_iff in Hc.
      destruct Hc as (c0 & <- & Hc0).
      rewrite Forall_forall in Hs. apply to_lower_alnum, Hs, Hc0.
    + lia.
    + unfold leftPad. rewrite ParseUint_loop_zeros.
      rewrite ParseUint_loop_formatBits; [reflexivity | exact Hv64|].
      apply Z.lt_le_trans with (36 ^ Z.of_nat (length s)); [lia|].
      apply Z.pow_le_mono_r; lia.
    + rewrite ParseUint_loop_to_lower by exact Hs. exact E.
Qed.

End NormalForm.

(** X21. Text to GUID to text: for every 26-byte input whose bytes 2-25 are
    ASCII letters or digits, [Parse] succeeds and [String] of the GUID it
    returns is the input with the letters after the prefix in lower case. *)
Theorem String_Parse_lower_case (p1 p2 : Z) (rest : list Z) :
  length rest = 24%nat -> Forall (fun c => is_alnum c = true) rest ->
  exists g, guid.Parse (p1 :: p2 :: rest) = Some (g, None)
    /\ guid.String g = p1 :: p2 :: map to_lower rest.
Proof.
  intros Hlen Hal.
  set (inp := p1 :: p2 :: rest).
  assert (Hinp : length inp = guid.byteSize) by (cbn; rewrite Hlen; reflexivity).
  assert (Hf : forall lo hi, (2 <= lo)%nat -> (hi <= 26)%nat ->
            (1 <= hi - lo <= 12)%nat ->
            exists v, strconv.ParseInt (slice inp lo hi) guid.base = Some v
              /\ 0 <= v < 36 ^ Z.of_nat (hi - lo)
              /\ guid.leftPad (strconv.FormatInt v guid.base) (hi - lo)
                 = map to_lower (slice inp lo hi)).
  { intros lo hi Hlo Hhi Hw.
    assert (Hsl : Forall (fun c => is_alnum c = true) (slice inp lo hi)).
    { apply Forall_slice; [rewrite Hinp; exact Hhi|].
      intros k Hk. destruct k as [| [| k]]; [lia | lia |].
      cbn [inp nth]. rewrite Forall_forall in Hal. apply Hal, nth_In. lia. }
    assert (Hl : length (slice inp lo hi) = (hi - lo)%nat)
      by (apply length_slice; rewrite Hinp; exact Hhi).
    destruct (leftPad_FormatInt_ParseInt (slice inp lo hi) Hsl) as (v & E & B & T);
      [lia|].
    rewrite Hl in B, T. exists v. auto. }
  destruct (Hf guid.tsStart guid.tsEnd) as (t & Ets & Bts & Tts);
    [cbv; lia | cbv; lia | cbv; lia |].
  destruct (Hf guid.fpStart guid.fpEnd) as (fp & Efp & Bfp & Tfp);
    [cbv; lia | cbv; lia | cbv; lia |].
  destruct (Hf guid.icStart guid.icEnd) as (ic & Eic & Bic & Tic);
    [cbv; lia | cbv; lia | cbv; lia |].
  destruct (Hf guid.dcStart guid.dcEnd) as (dc & Edc & Bdc & Tdc);
    [cbv; lia | cbv; lia | cbv; lia |].
  destruct (Hf guid.rdStart guid.rdEnd) as (rd & Erd & Brd & Trd);
    [cbv; lia | cbv; lia | cbv; lia |].
  clear Hf.
  change (36 ^ Z.of_nat (guid.tsEnd - guid.tsStart)) with (36 ^ 8) in Bts.
  change (36 ^ Z.of_nat (guid.fpEnd - guid.fpStart)) with 1679616 in Bfp.
  change (36 ^ Z.of_nat (guid.icEnd - guid.icStart)) with 1679616 in Bic.
  change (36 ^ Z.of_nat (guid.dcEnd - guid.dcStart)) with 1679616 in Bdc.
  change (36 ^ Z.of_nat (guid.rdEnd - guid.rdStart)) with 1679616 in Brd.
  rewrite (Parse_fields_build inp t fp ic dc rd Hinp Ets Efp Eic Edc Erd).
  destruct (parsed_time_exact t ltac:(lia)) as [E64 Ems].
  destruct (build_fields (nth 0 inp 0) (nth 1 inp 0) (to_int64 (t * 1000000))
              (to_int32 fp) (to_int32 ic) (to_int32 dc) (to_int32 rd)
              (is_int64_to_int64 _))
    as (g & -> & L & P0 & P1 & Gts & Gfp & Gic & Gdc & Grd).
  rewrite Ems in Gts.
  rewrite to_int32_small, filter_in_range in Gfp, Gic, Gdc, Grd
    by (unfold guid.maxInt; lia).
  exists g. split; [reflexivity|].
  rewrite String_fields. unfold field_text.
  rewrite Gts, Gfp, Gic, Gdc, Grd.
  change (guid.fieldSize * 2)%nat with (guid.tsEnd - guid.tsStart)%nat.
  change guid.fieldSize with (guid.fpEnd - guid.fpStart)%nat at 1.
  change guid.fieldSize with (guid.icEnd - guid.icStart)%nat at 1.
  change guid.fieldSize with (guid.dcEnd - guid.dcStart)%nat at 1.
  change guid.fieldSize with (guid.rdEnd - guid.rdStart)%nat at 1.
  rewrite Tts, Tfp, Tic, Tdc, Trd.
  assert (Hpre : slice g 0 2 = [p1; p2]).
  { cbn [inp nth] in P0, P1. unfold guid.byteSize in L. clear - L P0 P1.
    explode g L. cbn in P0, P1. subst. reflexivity. }
  rewrite Hpre. clear - Hlen. unfold inp. explode rest Hlen. reflexivity.
Qed.

Lemma String_Parse_lower_case_witness :
  exists g,
    guid.Parse (120 :: 111 :: bytes_of "KP8l85N201PQ00DW00RS6RGQ")
    = Some (g, None)
    /\ guid.String g
       = 120 :: 111 :: map to_lower (bytes_of "KP8l85N201PQ00DW00RS6RGQ").
Proof.
  apply String_Parse_lower_case; [reflexivity|].
  repeat constructor.
Defined.

